(** * ufro-assistant: the ingestion pipeline of [rag/ingest.py]

    A shallow embedding of the text normaliser ([clean_text]), the
    character-window chunker ([chunk_text]), the two-tier PDF extraction
    ([extract_pdf_text]), the chunk-record assembly
    ([build_chunks_for_doc]) and the catalogue loop of [main], together
    with the properties the specification states about them.

    Python values are modelled as follows.
    - [str] is a list of Unicode code points ([N]); [len] is its length
      as an integer.
    - [int] is [Z]; slices follow Python's rules for negative and
      out-of-range bounds.
    - A call that may raise, or a loop that may not finish, returns an
      [outcome]: a value, a raised exception, or [OutOfFuel] when the
      iteration budget of the model is used up. *)

From Stdlib Require Import Ascii String QArith Qminmax Qround.
From Stdlib Require Import List ZArith NArith Lia Bool Arith.
Import ListNotations.

Local Open Scope Z_scope.

(* ------------------------------------------------------------------ *)
(** ** Python strings *)

Module Py.

(** A character is a Unicode code point. *)
Definition char := N.
Definition str := list char.

Definition len (s : str) : Z := Z.of_nat (length s).

(** Literals, for examples: the code points of an ASCII literal. *)
Definition lit (s : string) : str := map N_of_ascii (list_ascii_of_string s).

Definition TAB : char := 9%N.
Definition LF : char := 10%N.
Definition FF : char := 12%N.
Definition CR : char := 13%N.
Definition SP : char := 32%N.

(** [str.isspace] on one code point: the characters [str.strip()] and
    [str.split()] treat as whitespace. *)
Definition is_space (c : char) : bool :=
  ((9 <=? c) && (c <=? 13) || (28 <=? c) && (c <=? 32)
   || (c =? 133) || (c =? 160) || (c =? 5760)
   || (8192 <=? c) && (c <=? 8202)
   || (c =? 8232) || (c =? 8233) || (c =? 8239) || (c =? 8287)
   || (c =? 12288))%N.

Fixpoint take_while (f : char -> bool) (s : str) : str :=
  match s with
  | [] => []
  | c :: r => if f c then c :: take_while f r else []
  end.

Fixpoint drop_while (f : char -> bool) (s : str) : str :=
  match s with
  | [] => []
  | c :: r => if f c then drop_while f r else s
  end.

Definition lstrip (s : str) : str := drop_while is_space s.
Definition rstrip (s : str) : str := rev (drop_while is_space (rev s)).

(** [s.strip()] *)
Definition strip (s : str) : str := rstrip (lstrip s).

(** Normalisation of one slice bound against a sequence of length [n]:
    a negative bound counts from the end, and every bound is clamped to
    [0..n]. *)
Definition slice_bound (n i : Z) : Z :=
  if i <? 0 then Z.max 0 (i + n) else Z.min i n.

(** [s[lo:hi]] *)
Definition slice (s : str) (lo hi : Z) : str :=
  let n := len s in
  let lo' := slice_bound n lo in
  let hi' := slice_bound n hi in
  firstn (Z.to_nat (hi' - lo')) (skipn (Z.to_nat lo') s).

(** [s.replace(a, b)] for one-character [a] and [b]. *)
Definition replace_char (a b : char) (s : str) : str :=
  map (fun c => if (c =? a)%N then b else c) s.

(** [needle in hay] *)
Fixpoint is_prefix (p s : str) : bool :=
  match p, s with
  | [], _ => true
  | _ :: _, [] => false
  | a :: p', b :: s' => (a =? b)%N && is_prefix p' s'
  end.

Fixpoint contains (needle hay : str) : bool :=
  is_prefix needle hay ||
  match hay with
  | [] => false
  | _ :: hay' => contains needle hay'
  end.

(** [s.split(sep)] for a one-character separator. *)
Fixpoint split_on (sep : char) (s : str) : list str :=
  match s with
  | [] => [[]]
  | c :: r =>
      match split_on sep r with
      | [] => [[]]
      | w :: ws => if (c =? sep)%N then [] :: w :: ws else (c :: w) :: ws
      end
  end.

(** [s.split()]: the maximal runs of characters that are not whitespace. *)
Fixpoint split_ws_aux (cur : str) (s : str) : list str :=
  match s with
  | [] => match cur with [] => [] | _ => [rev cur] end
  | c :: r =>
      if is_space c
      then match cur with
           | [] => split_ws_aux [] r
           | _ => rev cur :: split_ws_aux [] r
           end
      else split_ws_aux (c :: cur) r
  end.

Definition split_ws (s : str) : list str := split_ws_aux [] s.

(** [sep.join(words)] *)
Fixpoint join (sep : str) (words : list str) : str :=
  match words with
  | [] => []
  | [w] => w
  | w :: ws => w ++ sep ++ join sep ws
  end.

(** [re.sub(C{m,}, repl, s)] for a character class [C] and [m >= 1]:
    scanning from the left, at each position the longest run of class
    characters is tried; a run of at least [m] characters is replaced by
    [repl] and scanning resumes after it; otherwise the character is kept
    and scanning resumes at the next position. *)
Fixpoint re_sub_run (cls : char -> bool) (m : nat) (repl : str) (s : str) : str :=
  match s with
  | [] => []
  | c :: r =>
      if (m <=? length (take_while cls s))%nat
      then repl ++
           (fix skip (t : str) : str :=
              match t with
              | [] => []
              | d :: t' => if cls d then skip t' else d :: re_sub_run cls m repl t'
              end) r
      else c :: re_sub_run cls m repl r
  end.

End Py.

Import Py.

(* ------------------------------------------------------------------ *)
(** ** Outcomes of calls *)

Inductive exn : Type :=
| FileNotFoundError
| ValueError (column : str)
| SystemExit (code : Z).

Inductive outcome (A : Type) : Type :=
| Ret (a : A)
| Raise (e : exn)
| OutOfFuel.

Arguments Ret {A} a.
Arguments Raise {A} e.
Arguments OutOfFuel {A}.

Definition bind {A B : Type} (m : outcome A) (k : A -> outcome B) : outcome B :=
  match m with
  | Ret a => k a
  | Raise e => Raise e
  | OutOfFuel => OutOfFuel
  end.

Notation "x <- m ;; k" := (bind m (fun x => k))
  (at level 61, m at next level, right associativity).

(* ------------------------------------------------------------------ *)
(** ** The chunker *)

Definition CHUNK_SIZE : Z := 3800.
Definition CHUNK_OVERLAP : Z := 500.

(** The [while start < n] loop of [chunk_text]; [fuel] bounds the number
    of times the body runs. *)
Fixpoint chunk_loop (fuel : nat) (text : str) (n size overlap start : Z)
    (chunks : list str) {struct fuel} : outcome (list str) :=
  if start <? n then
    match fuel with
    | O => OutOfFuel
    | S fuel' =>
        let end_ := Z.min n (start + size) in
        let chunk := slice text start end_ in
        let chunks := chunks ++ [chunk] in
        if end_ =? n then Ret chunks
        else chunk_loop fuel' text n size overlap (Z.max 0 (end_ - overlap)) chunks
    end
  else Ret chunks.

Definition chunk_text_fuel (fuel : nat) (text : str) (size overlap : Z)
    : outcome (list str) :=
  let text := strip text in
  let n := len text in
  if n <=? size then Ret [text]
  else chunk_loop fuel text n size overlap 0 [].

(** [chunk_text]: the loop is given one iteration per character of the
    trimmed text. [chunk_text_adequate] below shows this budget loses
    nothing: whenever any budget lets the loop finish, this one does,
    with the same result. *)
Definition chunk_text (text : str) (size overlap : Z) : outcome (list str) :=
  chunk_text_fuel (length (strip text)) text size overlap.

(* ------------------------------------------------------------------ *)
(** ** The normaliser *)

Definition is_blank (c : char) : bool := ((c =? SP) || (c =? TAB))%N.
Definition is_lf (c : char) : bool := (c =? LF)%N.

(** [clean_text]: carriage returns become line feeds, runs of spaces and
    tabs become one space, runs of three or more line feeds become two,
    and the result is trimmed. *)
Definition clean_text (text : str) : str :=
  let text := replace_char CR LF text in
  let text := re_sub_run is_blank 1 [SP] text in
  let text := re_sub_run is_lf 3 [LF; LF] text in
  strip text.

(* ------------------------------------------------------------------ *)
(** ** PDF extraction *)

(** What [page.extract_text()] does on one page: it returns a string or
    [None], or it raises. *)
Inductive page_read : Type :=
| PageText (t : option str)
| PageRaises.

(** [x or ""] *)
Definition or_empty (x : option str) : str :=
  match x with
  | Some t => t
  | None => []
  end.

Fixpoint read_pages (ps : list page_read) : option (list str) :=
  match ps with
  | [] => Some []
  | PageRaises :: _ => None
  | PageText t :: r =>
      match read_pages r with
      | Some ts => Some (or_empty t :: ts)
      | None => None
      end
  end.

(** [extract_pdf_pypdf]: [reader] is [None] when [PdfReader(path)] raises;
    an exception anywhere inside the [try] gives the empty list. *)
Definition extract_pdf_pypdf (reader : option (list page_read)) : list str :=
  match reader with
  | None => []
  | Some ps =>
      match read_pages ps with
      | Some pages => pages
      | None => []
      end
  end.

(** [extract_pdf_pdfminer]: [miner] is [None] when [pdfminer_extract]
    raises, and otherwise what it returns. *)
Definition extract_pdf_pdfminer (miner : option (option str)) : list str :=
  match miner with
  | None => []
  | Some r =>
      let all_text := or_empty r in
      if contains [FF] all_text then split_on FF all_text else [all_text]
  end.

(** Truth value of a Python sequence: it is not empty. *)
Definition truthy {A : Type} (l : list A) : bool :=
  match l with
  | [] => false
  | _ :: _ => true
  end.

(** [sum(1 for t in pages if t and len(t.strip()) > 30)] *)
Definition count_non_empty (pages : list str) : Z :=
  Z.of_nat (length (filter (fun t => truthy t && (30 <? len (strip t))) pages)).

(** [int(0.3 * k)] for a page count [k]. The product is a binary64 float
    truncated towards zero; for every page count below [2^50] the double
    nearest to [0.3], multiplied by [k] and rounded, has the same integer
    part as the exact [3k/10], so the value is the integer quotient. *)
Definition int_0_3_times (k : Z) : Z := 3 * k / 10.

(** The test of line 83: tier 1 is kept. *)
Definition tier1_accepted (pages : list str) : bool :=
  let non_empty := count_non_empty pages in
  truthy pages
  && (Z.max 1 (int_0_3_times (Z.of_nat (length pages))) <=? non_empty).

Definition extract_pdf_text (reader : option (list page_read))
    (miner : option (option str)) : list str * bool :=
  let pages := extract_pdf_pypdf reader in
  if tier1_accepted pages then (pages, false)
  else
    let pm_pages := extract_pdf_pdfminer miner in
    let non_empty_pm := count_non_empty pm_pages in
    if truthy pm_pages && (1 <=? non_empty_pm) then (pm_pages, false)
    else ([], true).

(* ------------------------------------------------------------------ *)
(** ** Catalogue records, files and chunk records *)

(** One row of [data/sources.csv]. *)
Record SourceRecord : Type := {
  doc_id : str;
  title : str;
  url : str;
  fecha_descarga : str;
  vigencia : str;
  tipo : str
}.

(** A [pathlib.Path]: its string form and the parts the code reads. *)
Record Path : Type := {
  path_str : str;
  name : str;
  stem : str;
  suffix : str
}.

(** A file of [data/raw] with what each reader obtains from it.
    [file_text] is what [path.read_text] returns: a [RawFile] stands for
    an entry that can be read. An entry whose read raises (a directory,
    a file without read permission) has no [RawFile]; the properties
    below that speak of a returned result are stated under the condition
    that the result is returned. *)
Record RawFile : Type := {
  file_path : Path;
  pdf_reader : option (list page_read);
  pdfminer_text : option (option str);
  file_text : str
}.

Record ChunkRow : Type := {
  c_doc_id : str;
  c_title : str;
  c_page : option Z;
  c_url : str;
  c_vigencia : str;
  c_text : str;
  c_source_path : str;
  c_needs_ocr : bool
}.

Fixpoint str_eqb (a b : str) : bool :=
  match a, b with
  | [], [] => true
  | x :: a', y :: b' => (x =? y)%N && str_eqb a' b'
  | _, _ => false
  end.

(** [ext in exts] *)
Definition str_in (ext : str) (exts : list str) : bool :=
  existsb (str_eqb ext) exts.

(** [re.sub(r"<[^>]+>", " ", html)]: at a ["<"], the longest run of
    characters other than [">"] is taken; when it is not empty and a
    [">"] follows, the whole tag is replaced by one space. *)
Definition LT : char := 60%N.
Definition GT : char := 62%N.

Fixpoint sub_tags (s : str) : str :=
  match s with
  | [] => []
  | c :: r =>
      if (c =? LT)%N then
        match
          (fix scan (t : str) (seen : bool) : option str :=
             match t with
             | [] => None
             | d :: t' =>
                 if (d =? GT)%N
                 then (if seen then Some (sub_tags t') else None)
                 else scan t' true
             end) r false
        with
        | Some out => SP :: out
        | None => c :: sub_tags r
        end
      else c :: sub_tags r
  end.

(** [extract_txt], from the decoded content of the file. *)
Definition extract_txt (content : str) : list str := [clean_text content].

(** Lower-casing of ASCII letters, the instance of [str.lower] used in
    the examples. *)
Definition ascii_lower (s : str) : str :=
  map (fun c => if ((65 <=? c) && (c <=? 90))%N then (c + 32)%N else c) s.

Section Ingest.

(** [str.lower]: Unicode case mapping is taken as given. *)
Variable lower : str -> str.

Definition placeholder_row (row : SourceRecord) (path : Path) : ChunkRow :=
  {| c_doc_id := doc_id row;
     c_title := title row;
     c_page := None;
     c_url := url row;
     c_vigencia := vigencia row;
     c_text := [];
     c_source_path := path_str path;
     c_needs_ocr := true |}.

Definition text_row (row : SourceRecord) (path : Path) (i : Z) (ch : str)
    : ChunkRow :=
  {| c_doc_id := doc_id row;
     c_title := title row;
     c_page := Some i;
     c_url := url row;
     c_vigencia := vigencia row;
     c_text := ch;
     c_source_path := path_str path;
     c_needs_ocr := false |}.

(** The loop [for i, page_text in enumerate(page_texts, start=1)]. *)
Fixpoint page_loop (row : SourceRecord) (path : Path) (i : Z)
    (page_texts : list str) (chunks_rows : list ChunkRow)
    : outcome (list ChunkRow) :=
  match page_texts with
  | [] => Ret chunks_rows
  | page_text :: rest =>
      let page_text := clean_text page_text in
      if negb (truthy page_text) || (len page_text <? 30)
      then page_loop row path (i + 1) rest chunks_rows
      else
        chs <- chunk_text page_text CHUNK_SIZE CHUNK_OVERLAP ;;
        page_loop row path (i + 1) rest
          (chunks_rows ++ map (text_row row path i) chs)
  end.

(** The extension dispatch of [build_chunks_for_doc]: the page texts and
    the OCR flag, or [None] for an unsupported extension. *)
Definition read_document (f : RawFile) : option (list str * bool) :=
  let ext := lower (suffix (file_path f)) in
  if str_eqb ext (lit ".pdf")
  then Some (extract_pdf_text (pdf_reader f) (pdfminer_text f))
  else if str_in ext [lit ".txt"; lit ".text"]
  then Some (extract_txt (file_text f), false)
  else if str_in ext [lit ".html"; lit ".htm"]
  then Some ([clean_text (sub_tags (file_text f))], false)
  else None.

Definition build_chunks_for_doc (row : SourceRecord) (f : RawFile)
    : outcome (list ChunkRow) :=
  match read_document f with
  | None => Ret []
  | Some (page_texts, needs_ocr) =>
      if needs_ocr then Ret [placeholder_row row (file_path f)]
      else page_loop row (file_path f) 1 page_texts []
  end.

(** ** The catalogue and [main] *)

Record DataFrame : Type := {
  columns : list str;
  records : list SourceRecord
}.

Definition required : list str :=
  [lit "doc_id"; lit "title"; lit "url"; lit "fecha_descarga";
   lit "vigencia"; lit "tipo"].

Fixpoint check_columns (req : list str) (cols : list str) : outcome unit :=
  match req with
  | [] => Ret tt
  | c :: req' =>
      if str_in c cols then check_columns req' cols else Raise (ValueError c)
  end.

(** [read_sources_csv]: [csv] is [None] when the file does not exist,
    and [Some df] when it exists and [pd.read_csv] has parsed it into the
    table [df]. A file that exists and that [pd.read_csv] rejects (an
    empty file, a malformed one) has no table and is not an input of
    this function. *)
Definition read_sources_csv (csv : option DataFrame) : outcome DataFrame :=
  match csv with
  | None => Raise FileNotFoundError
  | Some df => _ <- check_columns required (columns df) ;; Ret df
  end.

(** Stage 1 of the file search: the first file whose stem contains the
    document id, both lower-cased. *)
Definition find_by_doc_id (id : str) (files : list RawFile) : option RawFile :=
  find (fun f => contains (lower id) (lower (stem (file_path f)))) files.

Definition is_not_alnum (c : char) : bool :=
  negb (((97 <=? c) && (c <=? 122)) || ((48 <=? c) && (c <=? 57)))%N.

(** The key of stage 2: the first three words of the lower-cased title,
    joined by underscores. *)
Definition title_key (t : str) : str :=
  let key := re_sub_run is_not_alnum 1 [SP] (lower t) in
  join (lit "_") (firstn 3 (split_ws key)).

Definition find_by_title (key : str) (files : list RawFile) : option RawFile :=
  find (fun f => truthy key && contains key (lower (stem (file_path f)))) files.

(** The [candidate] chosen for one catalogue row. *)
Definition resolve (row : SourceRecord) (files : list RawFile) : option RawFile :=
  match find_by_doc_id (doc_id row) files with
  | Some f => Some f
  | None => find_by_title (title_key (title row)) files
  end.

(** The loop over the catalogue rows, with the lists it fills. *)
Fixpoint main_loop (rows : list SourceRecord) (files : list RawFile)
    (all_rows : list ChunkRow) (missing : list str)
    : outcome (list ChunkRow * list str) :=
  match rows with
  | [] => Ret (all_rows, missing)
  | row :: rest =>
      match resolve row files with
      | None => main_loop rest files all_rows (missing ++ [doc_id row])
      | Some candidate =>
          rows' <- build_chunks_for_doc row candidate ;;
          main_loop rest files (all_rows ++ rows') missing
      end
  end.

(** What a finished run leaves: the table written to [chunks.parquet]
    and the ids of the documents without a file. *)
Record Report : Type := {
  saved : list ChunkRow;
  not_found : list str
}.

Definition main (csv : option DataFrame) (files : list RawFile) : outcome Report :=
  df_src <- read_sources_csv csv ;;
  if negb (truthy files) then Raise (SystemExit 1)
  else
    r <- main_loop (records df_src) files [] [] ;;
    let '(all_rows, missing) := r in
    if negb (truthy all_rows) then Raise (SystemExit 1)
    else Ret {| saved := all_rows; not_found := missing |}.

End Ingest.

(* ------------------------------------------------------------------ *)
(** ** The window walk of the specification *)

(** Window number [k] of a walk that advances by [step]: it starts at
    [k * step], is [size] characters long and is clipped to the end of
    the text. *)
Definition window (text : str) (size step : Z) (k : nat) : str :=
  slice text (Z.of_nat k * step)
    (Z.min (len text) (Z.of_nat k * step + size)).

(** The number of the first window that reaches the end of a text of
    [n] characters. *)
Definition last_window (n size step : Z) : nat :=
  Z.to_nat ((n - size + step - 1) / step).

(* ------------------------------------------------------------------ *)
(** ** Normal forms of the normaliser *)

(** The text starts with a character of the class. *)
Definition starts_with (cls : char -> bool) (s : str) : bool :=
  match s with
  | [] => false
  | c :: _ => cls c
  end.

(** Every run of spaces and tabs is one space. *)
Fixpoint blank_nf (s : str) : Prop :=
  match s with
  | [] => True
  | c :: r =>
      (is_blank c = true -> c = SP /\ starts_with is_blank r = false)
      /\ blank_nf r
  end.

(** From every position, fewer than [m] characters of the class follow
    in a row. *)
Fixpoint short_runs (cls : char -> bool) (m : nat) (s : str) : Prop :=
  match s with
  | [] => True
  | _ :: r => (length (take_while cls s) < m)%nat /\ short_runs cls m r
  end.

(** What [clean_text] establishes before it trims: no carriage return,
    single spaces only, at most two line feeds in a row. *)
Definition clean_nf (s : str) : Prop :=
  Forall (fun c => c <> CR) s /\ blank_nf s /\ short_runs is_lf 3 s.

(* ------------------------------------------------------------------ *)
(** ** The statements of the specification, in its own words *)

(** The tier-1 test as the specification words it: the count of usable
    pages against [max(1, 0.3 * total_pages)], with the product taken
    exactly, in the rationals. *)
Definition exact_threshold_met (pages : list str) : Prop :=
  (Qmax 1 ((3 # 10) * inject_Z (Z.of_nat (length pages)))
   <= inject_Z (count_non_empty pages))%Q.

(** The fallback extractor yields no segment with usable text. *)
Definition no_usable_text (pages : list str) : Prop :=
  count_non_empty pages = 0.

(** [f] is the first file of the listing that passes the test [p]. *)
Definition first_match (p : RawFile -> bool) (files : list RawFile)
    (f : RawFile) : Prop :=
  exists pre post,
    files = pre ++ f :: post /\ p f = true /\
    Forall (fun g => p g = false) pre.

(** The file search as the specification words it: the first file whose
    base name contains the id, and otherwise the first file whose base
    name contains the key made from the title, whatever that key is. *)
Definition resolve_as_specified (lower : str -> str) (row : SourceRecord)
    (files : list RawFile) : option RawFile :=
  match find_by_doc_id lower (doc_id row) files with
  | Some f => Some f
  | None =>
      find (fun f => contains (title_key lower (title row))
                       (lower (stem (file_path f)))) files
  end.

(** A record that does not ask for OCR holds at least 30 characters. *)
Definition readable (r : ChunkRow) : Prop :=
  c_needs_ocr r = false -> c_text r <> [] /\ 30 <= len (c_text r).

(** The document was classified as needing OCR. *)
Definition needs_ocr_doc (lower : str -> str) (f : RawFile) : Prop :=
  exists pages, read_document lower f = Some (pages, true).

(** The placeholder records of the catalogue rows that have a file, and
    the ids of the rows that have none, in catalogue order. *)
Definition placeholders (lower : str -> str) (rows : list SourceRecord)
    (files : list RawFile) : list ChunkRow :=
  flat_map (fun row =>
              match resolve lower row files with
              | Some f => [placeholder_row row (file_path f)]
              | None => []
              end) rows.

Definition unresolved (lower : str -> str) (rows : list SourceRecord)
    (files : list RawFile) : list str :=
  flat_map (fun row =>
              match resolve lower row files with
              | Some _ => []
              | None => [doc_id row]
              end) rows.

(* ------------------------------------------------------------------ *)
(** ** Sample inputs *)

(** A text of 4500 letters with blanks around it. *)
Definition text_4500 : str :=
  lit "  " ++ repeat 97%N 4500 ++ lit " ".

(** Ten letters with blanks around them. *)
Definition text_10 : str := lit " abcdefghij ".

(** A page of 31 letters, the shortest text that counts as usable. *)
Definition usable_page : str := repeat 97%N 31.

Definition sample_row : SourceRecord :=
  {| doc_id := lit "R001";
     title := lit "Reglamento de Convivencia";
     url := lit "https://example.org/r001";
     fecha_descarga := lit "2025-01-01";
     vigencia := lit "vigente";
     tipo := lit "pdf" |}.

Definition pdf_path : Path :=
  {| path_str := lit "data/raw/r001_reglamento.pdf";
     name := lit "r001_reglamento.pdf";
     stem := lit "r001_reglamento";
     suffix := lit ".pdf" |}.

(** Four pages, one of them usable; the fallback finds nothing. *)
Definition one_in_four_pdf : RawFile :=
  {| file_path := pdf_path;
     pdf_reader := Some [PageText (Some usable_page); PageText (Some []);
                         PageText None; PageText (Some [])];
     pdfminer_text := Some (Some []);
     file_text := [] |}.

(** A scanned document: no tier finds text. *)
Definition scanned_pdf : RawFile :=
  {| file_path := pdf_path;
     pdf_reader := Some [PageText (Some []); PageText None];
     pdfminer_text := Some (Some [FF; FF]);
     file_text := [] |}.

(** A catalogue row whose title has no letter or digit. *)
Definition punct_row : SourceRecord :=
  {| doc_id := lit "R002";
     title := lit "???";
     url := [];
     fecha_descarga := [];
     vigencia := [];
     tipo := lit "txt" |}.

Definition other_file : RawFile :=
  {| file_path := {| path_str := lit "data/raw/acta_2020.txt";
                     name := lit "acta_2020.txt";
                     stem := lit "acta_2020";
                     suffix := lit ".txt" |};
     pdf_reader := None;
     pdfminer_text := None;
     file_text := lit "acta" |}.

Definition sample_catalogue : DataFrame :=
  {| columns := required; records := [punct_row; sample_row] |}.

(** A plain-text file of 4500 letters. *)
Definition long_text_file : RawFile :=
  {| file_path := {| path_str := lit "data/raw/r001_notas.TXT";
                     name := lit "r001_notas.TXT";
                     stem := lit "r001_notas";
                     suffix := lit ".TXT" |};
     pdf_reader := None;
     pdfminer_text := None;
     file_text := text_4500 |}.

(* ------------------------------------------------------------------ *)
(** ** Notions used to state further properties *)

(** The text a reader rebuilds from overlapping chunks: the first chunk,
    then every later chunk without its first [overlap] characters. *)
Definition reassemble (overlap : Z) (chunks : list str) : str :=
  match chunks with
  | [] => []
  | c :: cs => c ++ flat_map (skipn (Z.to_nat overlap)) cs
  end.

(** [ch] is a contiguous part of [t]. *)
Definition segment_of (ch t : str) : Prop :=
  exists p q, t = p ++ ch ++ q.

(** The characters of a text that are not whitespace, in order. *)
Definition visible (s : str) : str :=
  filter (fun c => negb (is_space c)) s.

(** Number of occurrences of a character. *)
Definition count_char (c : char) (s : str) : nat :=
  length (filter (fun d => (d =? c)%N) s).

(** The text one page read contributes when it does not raise. *)
Definition page_text (p : page_read) : str :=
  match p with
  | PageText t => or_empty t
  | PageRaises => []
  end.

(** The record [r] holds a chunk of one of the [pages], numbered from
    [i]: with the default size and overlap, [chunk_text] cuts the
    normalised text of page number [k] into chunks, and [r] is the
    record of one of them, with page [i + k]. *)
Definition cut_from_page (row : SourceRecord) (path : Path) (i : Z)
    (pages : list str) (r : ChunkRow) : Prop :=
  exists (k : nat) (page : str) (chs : list str) (ch : str),
    nth_error pages k = Some page
    /\ chunk_text (clean_text page) CHUNK_SIZE CHUNK_OVERLAP = Ret chs
    /\ In ch chs
    /\ r = text_row row path (i + Z.of_nat k) ch.

(** The record carries the catalogue data of [row] and the path of the
    file. *)
Definition describes (row : SourceRecord) (path : Path) (r : ChunkRow) : Prop :=
  c_doc_id r = doc_id row /\ c_title r = title row /\ c_url r = url row
  /\ c_vigencia r = vigencia row /\ c_source_path r = path_str path.

(** The rows of one document, and of a whole catalogue in its order. *)
Definition doc_rows (lower : str -> str) (row : SourceRecord) (f : RawFile)
    : list ChunkRow :=
  match build_chunks_for_doc lower row f with
  | Ret rows => rows
  | _ => []
  end.

Definition catalogue_rows (lower : str -> str) (rows : list SourceRecord)
    (files : list RawFile) : list ChunkRow :=
  flat_map (fun row =>
              match resolve lower row files with
              | Some f => doc_rows lower row f
              | None => []
              end) rows.

(** The [snippet] of a source entry in the answer of [/ask]
    ([server.py]): [text[:250].replace("\n", " ")]. *)
Definition snippet (text : str) : str :=
  replace_char LF SP (slice text 0 250).

(** The scan [sub_tags] makes behind a ["<"], by name: it looks for the
    next [">"]; [seen] tells whether a character other than [">"] was
    passed; the result is the substituted rest of the text behind the
    tag, or [None] when there is no tag here. *)
Fixpoint scan_tag (t : str) (seen : bool) : option str :=
  match t with
  | [] => None
  | d :: t' =>
      if (d =? GT)%N
      then (if seen then Some (sub_tags t') else None)
      else scan_tag t' true
  end.

(** The characters a file-search key is made of: [a-z], [0-9] and the
    underscore. *)
Definition is_key_char (c : char) : bool :=
  (negb (is_not_alnum c) || (c =? 95))%N.

(* ------------------------------------------------------------------ *)
(** * Properties *)

(** ** Trimming *)

Section Trimming.

Variable f : char -> bool.

Lemma drop_while_idem (s : str) :
  drop_while f (drop_while f s) = drop_while f s.
Proof.
  induction s as [|c r IH]; simpl; [reflexivity|].
  destruct (f c) eqn:E; [exact IH|]. simpl. now rewrite E.
Qed.

Lemma drop_while_split (s : str) :
  exists p, s = p ++ drop_while f s.
Proof.
  induction s as [|c r [p IH]]; simpl.
  - now exists [].
  - destruct (f c).
    + exists (c :: p). simpl. now f_equal.
    + now exists [].
Qed.

Lemma drop_while_snoc (s : str) (c : char) :
  f c = false -> drop_while f (s ++ [c]) = drop_while f s ++ [c].
Proof.
  intros Hc. induction s as [|d r IH]; simpl.
  - now rewrite Hc.
  - destruct (f d); [exact IH | reflexivity].
Qed.

Lemma drop_while_head (s : str) (c : char) (r : str) :
  drop_while f s = c :: r -> f c = false.
Proof.
  induction s as [|d t IH]; simpl; [discriminate|].
  destruct (f d) eqn:E; [exact IH|]. intros H. now inversion H; subst.
Qed.

Lemma drop_while_keep (c : char) (r : str) :
  f c = false -> drop_while f (c :: r) = c :: r.
Proof. intros H. simpl. now rewrite H. Qed.

End Trimming.

Lemma rstrip_idem (s : str) : rstrip (rstrip s) = rstrip s.
Proof.
  unfold rstrip. now rewrite rev_involutive, drop_while_idem.
Qed.

Lemma rstrip_keeps_head (c : char) (r : str) :
  is_space c = false -> exists r', rstrip (c :: r) = c :: r'.
Proof.
  intros Hc. unfold rstrip. simpl rev.
  rewrite (drop_while_snoc _ _ _ Hc), rev_app_distr. simpl. eauto.
Qed.

(** A trimmed text starts with a character that is not whitespace. *)
Lemma lstrip_strip (s : str) : lstrip (strip s) = strip s.
Proof.
  unfold strip, lstrip.
  destruct (drop_while is_space s) as [|c r] eqn:E; [reflexivity|].
  pose proof (drop_while_head _ _ _ _ E) as Hc.
  destruct (rstrip_keeps_head c r Hc) as [r' ->].
  now apply drop_while_keep.
Qed.

Lemma strip_idem (s : str) : strip (strip s) = strip s.
Proof.
  unfold strip at 1. rewrite lstrip_strip.
  unfold strip. apply rstrip_idem.
Qed.

(** The trimmed text is a segment of the text. *)
Lemma strip_segment (s : str) : exists p q, s = p ++ strip s ++ q.
Proof.
  unfold strip, lstrip.
  destruct (drop_while_split is_space s) as [p Hp].
  exists p. set (t := drop_while is_space s) in *.
  unfold rstrip.
  destruct (drop_while_split is_space (rev t)) as [q Hq].
  exists (rev q).
  rewrite <- rev_app_distr, <- Hq, rev_involutive. exact Hp.
Qed.

Lemma strip_nil : strip [] = [].
Proof. reflexivity. Qed.

(** ** Slices *)

Lemma len_nonneg (s : str) : 0 <= len s.
Proof. unfold len. lia. Qed.

Lemma slice_inside (s : str) (lo hi : Z) :
  0 <= lo -> lo <= hi -> hi <= len s ->
  slice s lo hi = firstn (Z.to_nat (hi - lo)) (skipn (Z.to_nat lo) s).
Proof.
  intros H0 H1 H2. unfold slice, slice_bound.
  destruct (Z.ltb_spec lo 0); [lia|].
  destruct (Z.ltb_spec hi 0); [lia|].
  now rewrite !Z.min_l by lia.
Qed.

Lemma slice_length (s : str) (lo hi : Z) :
  0 <= lo -> lo <= hi -> hi <= len s ->
  len (slice s lo hi) = hi - lo.
Proof.
  intros H0 H1 H2. rewrite slice_inside by assumption.
  unfold len in *. rewrite length_firstn, length_skipn. lia.
Qed.

Lemma slice_nth (s : str) (lo hi : Z) (j : nat) :
  0 <= lo -> lo <= hi -> hi <= len s -> Z.of_nat j < hi - lo ->
  nth_error (slice s lo hi) j = nth_error s (Z.to_nat lo + j).
Proof.
  intros H0 H1 H2 Hj. rewrite slice_inside by assumption.
  rewrite nth_error_firstn.
  destruct (Nat.ltb_spec j (Z.to_nat (hi - lo))); [|lia].
  now rewrite nth_error_skipn.
Qed.

Lemma slice_whole (s : str) : slice s 0 (len s) = s.
Proof.
  rewrite slice_inside by (pose proof (len_nonneg s); lia).
  simpl. unfold len. rewrite Z.sub_0_r, Nat2Z.id. apply firstn_all.
Qed.

(** ** The window loop *)

Section Loop.

Variables (text : str) (n size overlap : Z).

Lemma chunk_loop_unfold (fuel : nat) (start : Z) (chunks : list str) :
  chunk_loop fuel text n size overlap start chunks =
  if start <? n then
    match fuel with
    | O => OutOfFuel
    | S fuel' =>
        if Z.min n (start + size) =? n
        then Ret (chunks ++ [slice text start (Z.min n (start + size))])
        else chunk_loop fuel' text n size overlap
               (Z.max 0 (Z.min n (start + size) - overlap))
               (chunks ++ [slice text start (Z.min n (start + size))])
    end
  else Ret chunks.
Proof. destruct fuel; reflexivity. Qed.

(** The loop has no [raise]. *)
Lemma chunk_loop_never_raises (fuel : nat) :
  forall start chunks e,
    chunk_loop fuel text n size overlap start chunks <> Raise e.
Proof.
  induction fuel as [|fuel IH]; intros start chunks e;
    rewrite chunk_loop_unfold; destruct (start <? n); try discriminate.
  destruct (_ =? n); [discriminate | apply IH].
Qed.

(** More iterations never change a result that was reached. *)
Lemma chunk_loop_fuel_mono (fuel : nat) :
  forall fuel' start chunks l,
    (fuel <= fuel')%nat ->
    chunk_loop fuel text n size overlap start chunks = Ret l ->
    chunk_loop fuel' text n size overlap start chunks = Ret l.
Proof.
  induction fuel as [|fuel IH]; intros fuel' start chunks l Hle;
    rewrite (chunk_loop_unfold fuel'), chunk_loop_unfold;
    destruct (start <? n); try discriminate; try tauto.
  destruct fuel' as [|fuel']; [lia|].
  destruct (_ =? n); [tauto|]. apply IH. lia.
Qed.

(** With [overlap < size] every iteration moves [start] forward, so the
    loop ends within [n - start] iterations. *)
Lemma chunk_loop_terminates (fuel : nat) :
  forall start chunks,
    overlap < size -> 0 <= start -> n - start <= Z.of_nat fuel ->
    exists l, chunk_loop fuel text n size overlap start chunks = Ret l.
Proof.
  induction fuel as [|fuel IH]; intros start chunks Hov H0 Hfuel;
    rewrite chunk_loop_unfold; destruct (Z.ltb_spec start n); eauto; try lia.
  destruct (Z.eqb_spec (Z.min n (start + size)) n); eauto.
  apply IH; lia.
Qed.

(** With [overlap >= size] and a text longer than [size], [start] is 0
    again after every iteration. *)
Lemma chunk_loop_stuck (fuel : nat) :
  forall chunks,
    size <= overlap -> 0 < n -> size < n ->
    chunk_loop fuel text n size overlap 0 chunks = OutOfFuel.
Proof.
  induction fuel as [|fuel IH]; intros chunks Hov Hn Hsz;
    rewrite chunk_loop_unfold; destruct (Z.ltb_spec 0 n); try lia; auto.
  destruct (Z.eqb_spec (Z.min n (0 + size)) n); [lia|].
  replace (Z.max 0 (Z.min n (0 + size) - overlap)) with 0 by lia.
  now apply IH.
Qed.

End Loop.

Lemma chunk_text_fuel_never_raises (fuel : nat) (T : str) (size overlap : Z) (e : exn) :
  chunk_text_fuel fuel T size overlap <> Raise e.
Proof.
  unfold chunk_text_fuel. destruct (_ <=? size); [discriminate|].
  apply chunk_loop_never_raises.
Qed.

Lemma chunk_text_fuel_mono (fuel fuel' : nat) (T : str) (size overlap : Z) (l : list str) :
  (fuel <= fuel')%nat ->
  chunk_text_fuel fuel T size overlap = Ret l ->
  chunk_text_fuel fuel' T size overlap = Ret l.
Proof.
  unfold chunk_text_fuel. destruct (_ <=? size); [tauto|].
  apply chunk_loop_fuel_mono.
Qed.

(** With [overlap < size] the call returns. *)
Lemma chunk_text_returns (T : str) (size overlap : Z) :
  overlap < size -> exists l, chunk_text T size overlap = Ret l.
Proof.
  intros Hov. unfold chunk_text, chunk_text_fuel.
  destruct (_ <=? size); eauto.
  apply chunk_loop_terminates; unfold len; lia.
Qed.

(** With [overlap >= size] and a non-empty trimmed text longer than
    [size], no number of iterations finishes the loop. *)
Lemma chunk_text_diverges (T : str) (size overlap : Z) :
  size <= overlap -> 0 < len (strip T) -> size < len (strip T) ->
  forall fuel, chunk_text_fuel fuel T size overlap = OutOfFuel.
Proof.
  intros Hov Hn Hsz fuel. unfold chunk_text_fuel.
  destruct (Z.leb_spec (len (strip T)) size); [lia|].
  now apply chunk_loop_stuck.
Qed.

(** The budget of [chunk_text] is enough: it returns whatever any budget
    returns. *)
Lemma chunk_text_adequate (T : str) (size overlap : Z) (l : list str) :
  (exists fuel, chunk_text_fuel fuel T size overlap = Ret l) <->
  chunk_text T size overlap = Ret l.
Proof.
  split; [|intros H; now exists (length (strip T))].
  intros [fuel H].
  destruct (Z.lt_ge_cases overlap size) as [Hov|Hov].
  - destruct (chunk_text_returns T size overlap Hov) as [l' Hl'].
    rewrite Hl'. f_equal.
    pose proof (chunk_text_fuel_mono _ (Nat.max fuel (length (strip T))) _ _ _ _
                  (Nat.le_max_l _ _) H) as H1.
    pose proof (chunk_text_fuel_mono _ (Nat.max fuel (length (strip T))) _ _ _ _
                  (Nat.le_max_r _ _) Hl') as H2.
    congruence.
  - unfold chunk_text. revert H. unfold chunk_text_fuel.
    destruct (Z.leb_spec (len (strip T)) size); [tauto|].
    destruct (Z.lt_ge_cases 0 (len (strip T))) as [Hn|Hn].
    + rewrite chunk_loop_stuck by lia. discriminate.
    + rewrite !chunk_loop_unfold.
      destruct (Z.ltb_spec 0 (len (strip T))); [lia | tauto].
Qed.

(** When [chunk_text] runs out of its budget, every budget runs out. *)
Lemma chunk_text_out_of_fuel (T : str) (size overlap : Z) :
  chunk_text T size overlap = OutOfFuel ->
  forall fuel, chunk_text_fuel fuel T size overlap = OutOfFuel.
Proof.
  intros H fuel.
  destruct (chunk_text_fuel fuel T size overlap) as [l|e|] eqn:E.
  - assert (chunk_text T size overlap = Ret l)
      by (apply chunk_text_adequate; eauto).
    congruence.
  - now apply chunk_text_fuel_never_raises in E.
  - reflexivity.
Qed.

(** The chunker on ten letters, windows of four with one shared. *)
Example chunk_text_ten_letters :
  chunk_text text_10 4 1 = Ret [lit "abcd"; lit "defg"; lit "ghij"].
Proof. reflexivity. Qed.

(** A negative size makes Python's slice count from the end. *)
Example chunk_text_negative_size :
  chunk_text (lit "abcdefgh") (-3) (-10) = Ret [lit "abcde"; []].
Proof. reflexivity. Qed.

(** ** The windows the loop emits *)

Section Walk.

Variables (text : str) (size overlap : Z).
Hypothesis overlap_nonneg : 0 <= overlap.
Hypothesis overlap_small : overlap < size.

Let step := size - overlap.

(** From window [k], with [m] more windows to go, the loop appends the
    windows [k .. k + m]. *)
Lemma chunk_loop_windows (m : nat) :
  forall (k fuel : nat) (chunks : list str),
    Z.of_nat k * step < len text ->
    len text <= Z.of_nat (k + m) * step + size ->
    (forall j, (j < m)%nat -> Z.of_nat (k + j) * step + size < len text) ->
    (m < fuel)%nat ->
    chunk_loop fuel text (len text) size overlap (Z.of_nat k * step) chunks
    = Ret (chunks ++ map (window text size step) (seq k (S m))).
Proof.
  induction m as [|m IH]; intros k fuel chunks Hk Hend Hbefore Hfuel;
    (destruct fuel as [|fuel]; [lia|]); rewrite chunk_loop_unfold;
    (destruct (Z.ltb_spec (Z.of_nat k * step) (len text)); [|lia]).
  - rewrite Nat.add_0_r in Hend.
    destruct (Z.eqb_spec (Z.min (len text) (Z.of_nat k * step + size)) (len text));
      [reflexivity | lia].
  - pose proof (Hbefore 0%nat ltac:(lia)) as H0. rewrite Nat.add_0_r in H0.
    destruct (Z.eqb_spec (Z.min (len text) (Z.of_nat k * step + size)) (len text));
      [lia|].
    replace (Z.max 0 (Z.min (len text) (Z.of_nat k * step + size) - overlap))
      with (Z.of_nat (S k) * step) by (unfold step in *; lia).
    rewrite IH.
    + rewrite <- app_assoc. reflexivity.
    + unfold step in *. lia.
    + replace (S k + m)%nat with (k + S m)%nat by lia. exact Hend.
    + intros j Hj. replace (S k + j)%nat with (k + S j)%nat by lia.
      apply Hbefore. lia.
    + lia.
Qed.

Hypothesis text_long : size < len text.

Let m := last_window (len text) size step.

Lemma last_window_reaches_end : len text <= Z.of_nat m * step + size.
Proof.
  unfold m, last_window.
  assert (Hs : 0 < step) by (unfold step; lia).
  pose proof (Z.div_mod (len text - size + step - 1) step ltac:(lia)) as Hd.
  pose proof (Z.mod_pos_bound (len text - size + step - 1) step Hs) as Hm.
  assert (0 <= (len text - size + step - 1) / step)
    by (apply Z.div_pos; lia).
  rewrite Z2Nat.id by assumption. nia.
Qed.

Lemma last_window_is_first (j : nat) :
  (j < m)%nat -> Z.of_nat j * step + size < len text.
Proof.
  unfold m, last_window.
  assert (Hs : 0 < step) by (unfold step; lia).
  pose proof (Z.div_mod (len text - size + step - 1) step ltac:(lia)) as Hd.
  pose proof (Z.mod_pos_bound (len text - size + step - 1) step Hs) as Hm.
  assert (0 <= (len text - size + step - 1) / step)
    by (apply Z.div_pos; lia).
  intros Hj. apply Nat2Z.inj_lt in Hj. rewrite Z2Nat.id in Hj by assumption.
  nia.
Qed.

Lemma chunk_loop_walk (fuel : nat) :
  (m < fuel)%nat ->
  chunk_loop fuel text (len text) size overlap 0 []
  = Ret (map (window text size step) (seq 0 (S m))).
Proof.
  intros Hfuel.
  pose proof (chunk_loop_windows m 0 fuel []) as H. simpl in H. apply H.
  - lia.
  - apply last_window_reaches_end.
  - apply last_window_is_first.
  - exact Hfuel.
Qed.

Lemma last_window_lt_length : (m < length text)%nat.
Proof.
  destruct m as [|m'] eqn:E.
  - unfold len in text_long. lia.
  - pose proof (last_window_is_first m') as H. fold m in H. rewrite E in H.
    specialize (H ltac:(lia)).
    assert (Hs : 0 < step) by (unfold step; lia).
    unfold len in H. nia.
Qed.

(** Window [k] in terms of its bounds. *)
Lemma window_bounds (k : nat) :
  (k <= m)%nat ->
  0 <= Z.of_nat k * step /\
  Z.of_nat k * step < Z.min (len text) (Z.of_nat k * step + size) /\
  Z.min (len text) (Z.of_nat k * step + size) <= len text.
Proof.
  intros Hk. assert (Hs : 0 < step) by (unfold step; lia).
  split; [nia|]. split; [|lia].
  destruct (Nat.eq_dec k 0) as [->|Hne]; [lia|].
  pose proof (last_window_is_first (k - 1) ltac:(lia)) as H.
  replace (Z.of_nat (k - 1)) with (Z.of_nat k - 1) in H by lia.
  unfold step in *. nia.
Qed.

(** Every position of the text lies in some window. *)
Lemma windows_cover (i : nat) :
  (i < length text)%nat ->
  exists k j : nat,
    (k <= m)%nat /\
    Z.of_nat i = Z.of_nat k * step + Z.of_nat j /\
    nth_error (window text size step k) j = nth_error text i.
Proof.
  intros Hi. assert (Hs : 0 < step) by (unfold step; lia).
  set (q := Z.to_nat (Z.of_nat i / step)).
  assert (Hq : Z.of_nat q = Z.of_nat i / step)
    by (unfold q; rewrite Z2Nat.id; [reflexivity | apply Z.div_pos; lia]).
  pose proof (Z.div_mod (Z.of_nat i) step ltac:(lia)) as Hd.
  pose proof (Z.mod_pos_bound (Z.of_nat i) step Hs) as Hm.
  set (k := Nat.min q m).
  assert (Hkm : (k <= m)%nat) by (unfold k; lia).
  assert (Hki : Z.of_nat k * step <= Z.of_nat i) by (unfold k; nia).
  assert (Hik : Z.of_nat i < Z.min (len text) (Z.of_nat k * step + size)).
  { apply Z.min_glb_lt; [unfold len; lia|].
    destruct (Nat.le_gt_cases q m) as [Hle|Hgt].
    - replace k with q by (unfold k; lia). unfold step in *. nia.
    - replace k with m by (unfold k; lia).
      pose proof last_window_reaches_end. unfold len in *. lia. }
  exists k, (Z.to_nat (Z.of_nat i - Z.of_nat k * step)).
  split; [exact Hkm|]. split; [lia|].
  unfold window. destruct (window_bounds k Hkm) as (B0 & B1 & B2).
  rewrite slice_nth by lia. f_equal. lia.
Qed.

(** A window that is not the last has [size] characters, and its last
    [overlap] characters are the first [overlap] characters of the next
    window. *)
Lemma windows_overlap (k : nat) :
  (k < m)%nat ->
  len (window text size step k) = size /\
  overlap <= len (window text size step (S k)) /\
  skipn (Z.to_nat step) (window text size step k)
  = firstn (Z.to_nat overlap) (window text size step (S k)).
Proof.
  intros Hk. assert (Hs : 0 < step) by (unfold step; lia).
  pose proof (last_window_is_first k Hk) as Hin.
  destruct (window_bounds k ltac:(lia)) as (A0 & A1 & A2).
  destruct (window_bounds (S k) ltac:(lia)) as (B0 & B1 & B2).
  assert (Hnext : Z.of_nat (S k) * step = Z.of_nat k * step + step) by lia.
  unfold window. split; [|split].
  - rewrite slice_length by lia. lia.
  - rewrite slice_length by lia. unfold step in *. lia.
  - rewrite !slice_inside by lia.
    rewrite skipn_firstn_comm, skipn_skipn, firstn_firstn.
    f_equal; [unfold step in *; lia|]. f_equal. lia.
Qed.

End Walk.

(* ------------------------------------------------------------------ *)
(** ** The chunker: results *)

(** The list [chunk_text] returns on a long text. *)
Lemma chunk_text_window_walk_all (T : str) (size overlap : Z) :
  size < len (strip T) ->
  0 <= overlap < size ->
  let t := strip T in
  let step := size - overlap in
  let m := last_window (len t) size step in
  chunk_text T size overlap = Ret (map (window t size step) (seq 0 (S m)))
  /\ (m < length t)%nat.
Proof.
  intros Hlong [Hov0 Hov] t step m. fold t in Hlong.
  assert (Hm : (m < length t)%nat) by now apply last_window_lt_length.
  split; [|exact Hm].
  unfold chunk_text, chunk_text_fuel. fold t.
  destruct (Z.leb_spec (len t) size); [lia|].
  now apply chunk_loop_walk.
Qed.

(** C1. For a text whose trimmed form [t] is longer than [size], and
    [0 <= overlap < size], [chunk_text] returns the windows number
    [0 .. m] of the walk that starts at 0 and advances by
    [size - overlap], each [size] characters long and the last one
    clipped to the end of [t]. Every character position of [t] lies in
    one of them; each window but the last has exactly [size] characters
    and shares exactly its last [overlap] characters with the start of
    the next one. A text of 4500 characters with [size = 3800] and
    [overlap = 500] gives the two chunks [t[0:3800]] and [t[3300:4500]]. *)
Theorem chunk_text_window_walk (T : str) (size overlap : Z) :
  size < len (strip T) ->
  0 <= overlap < size ->
  let t := strip T in
  let step := size - overlap in
  let m := last_window (len t) size step in
  chunk_text T size overlap = Ret (map (window t size step) (seq 0 (S m)))
  /\ (forall i : nat, (i < length t)%nat ->
        exists k j : nat,
          (k <= m)%nat /\
          Z.of_nat i = Z.of_nat k * step + Z.of_nat j /\
          nth_error (window t size step k) j = nth_error t i)
  /\ (forall k : nat, (k < m)%nat ->
        len (window t size step k) = size /\
        overlap <= len (window t size step (S k)) /\
        skipn (Z.to_nat step) (window t size step k)
        = firstn (Z.to_nat overlap) (window t size step (S k)))
  /\ (len t = 4500 -> size = 3800 -> overlap = 500 ->
        chunk_text T size overlap = Ret [slice t 0 3800; slice t 3300 4500]).
Proof.
  intros Hlong [Hov0 Hov] t step m. fold t in Hlong.
  assert (Hwalk : chunk_text T size overlap
                  = Ret (map (window t size step) (seq 0 (S m))))
    by now apply chunk_text_window_walk_all.
  split; [exact Hwalk|]. split; [|split].
  - intros i Hi. now apply windows_cover.
  - intros k Hk. now apply windows_overlap.
  - intros Hn -> ->. rewrite Hwalk. unfold m, step, window, last_window.
    rewrite Hn. reflexivity.
Qed.

Lemma chunk_text_window_walk_witness :
  chunk_text text_4500 3800 500
  = Ret [slice (strip text_4500) 0 3800; slice (strip text_4500) 3300 4500].
Proof.
  assert (H1 : 3800 < len (strip text_4500)) by (vm_compute; reflexivity).
  assert (H2 : 0 <= 500 < 3800) by lia.
  destruct (chunk_text_window_walk text_4500 3800 500 H1 H2) as (_ & _ & _ & H).
  apply H; vm_compute; reflexivity.
Defined.

(** C2. A text whose trimmed length is at most [size] gives exactly one
    chunk, the trimmed text, whatever the iteration budget. *)
Theorem chunk_text_short (T : str) (size overlap : Z) :
  len (strip T) <= size ->
  chunk_text T size overlap = Ret [strip T]
  /\ forall fuel, chunk_text_fuel fuel T size overlap = Ret [strip T].
Proof.
  intros H.
  assert (forall fuel, chunk_text_fuel fuel T size overlap = Ret [strip T]).
  { intros fuel. unfold chunk_text_fuel.
    destruct (Z.leb_spec (len (strip T)) size); [reflexivity | lia]. }
  split; [apply H0 | exact H0].
Qed.

Lemma chunk_text_short_witness :
  chunk_text text_10 CHUNK_SIZE CHUNK_OVERLAP = Ret [lit "abcdefghij"].
Proof.
  apply (chunk_text_short text_10 CHUNK_SIZE CHUNK_OVERLAP).
  vm_compute. discriminate.
Defined.

(** C3, as stated, fails: with [overlap >= size] a short text is chunked
    without any error, and a longer one keeps the loop running for
    ever. *)
Lemma chunk_text_overlap_ge_size_not_rejected :
  4 <= 4
  /\ chunk_text (lit "abc") 4 4 = Ret [lit "abc"]
  /\ (forall e, chunk_text (lit "abc") 4 4 <> Raise e)
  /\ (forall e, chunk_text (lit "abcde") 4 4 <> Raise e)
  /\ (forall fuel, chunk_text_fuel fuel (lit "abcde") 4 4 = OutOfFuel).
Proof.
  split; [lia|]. split; [reflexivity|].
  split; [intros e H; vm_compute in H; discriminate|].
  split; [intros e H; vm_compute in H; discriminate|].
  apply chunk_text_diverges; [lia | reflexivity | reflexivity].
Qed.

(** C3, amended. [chunk_text] validates nothing and never raises. With
    [overlap >= size] a text whose trimmed length is at most [size] is
    returned as one chunk; with [overlap < size] the call returns on
    every text. *)
Theorem chunk_text_no_validation (T : str) (size overlap : Z) :
  (forall e, chunk_text T size overlap <> Raise e)
  /\ (size <= overlap -> len (strip T) <= size ->
        chunk_text T size overlap = Ret [strip T])
  /\ (overlap < size -> exists chunks, chunk_text T size overlap = Ret chunks).
Proof.
  split; [|split].
  - intros e. apply chunk_text_fuel_never_raises.
  - intros _ H. unfold chunk_text, chunk_text_fuel.
    destruct (Z.leb_spec (len (strip T)) size); [reflexivity | lia].
  - apply chunk_text_returns.
Qed.

Lemma chunk_text_no_validation_witness :
  chunk_text (lit "abc") 4 4 = Ret [lit "abc"]
  /\ exists chunks, chunk_text text_10 4 1 = Ret chunks.
Proof.
  split.
  - apply (chunk_text_no_validation (lit "abc") 4 4); [lia|].
    vm_compute. discriminate.
  - apply (chunk_text_no_validation text_10 4 1). lia.
Defined.

(** C4, as stated, fails: a text of blanks gives one chunk, the empty
    string, not an empty list. *)
Lemma chunk_text_blank_gives_empty_chunk :
  strip (lit "   ") = []
  /\ chunk_text (lit "   ") CHUNK_SIZE CHUNK_OVERLAP = Ret [[]]
  /\ chunk_text (lit "   ") CHUNK_SIZE CHUNK_OVERLAP <> Ret [].
Proof.
  split; [reflexivity|]. split; [reflexivity|].
  intros H; vm_compute in H; discriminate.
Qed.

(** C4, amended. For a text that is empty after trimming, [chunk_text]
    returns the one-element list holding the empty string when
    [size >= 0], and the empty list only when [size < 0]. *)
Theorem chunk_text_blank (T : str) (size overlap : Z) :
  strip T = [] ->
  chunk_text T size overlap = Ret (if 0 <=? size then [[]] else []).
Proof.
  intros H. unfold chunk_text, chunk_text_fuel. rewrite H.
  change (len []) with 0.
  destruct (Z.leb_spec 0 size); reflexivity.
Qed.

Lemma chunk_text_blank_witness :
  chunk_text (lit "   ") CHUNK_SIZE CHUNK_OVERLAP = Ret [[]].
Proof.
  apply (chunk_text_blank (lit "   ") CHUNK_SIZE CHUNK_OVERLAP). reflexivity.
Defined.

(* ------------------------------------------------------------------ *)
(** ** Substitution of runs *)

Section ReSub.

Variables (cls : char -> bool) (m : nat) (repl : str).
Hypothesis m_pos : (1 <= m)%nat.

Let sub := re_sub_run cls m repl.

Lemma take_drop_while (s : str) :
  take_while cls s ++ drop_while cls s = s.
Proof.
  induction s as [|c r IH]; simpl; [reflexivity|].
  destruct (cls c); simpl; [now f_equal | reflexivity].
Qed.

Lemma take_while_all (s : str) : Forall (fun c => cls c = true) (take_while cls s).
Proof.
  induction s as [|c r IH]; simpl; [constructor|].
  destruct (cls c) eqn:E; constructor; assumption.
Qed.

Lemma drop_while_start (s : str) : starts_with cls (drop_while cls s) = false.
Proof.
  induction s as [|c r IH]; simpl; [reflexivity|].
  destruct (cls c) eqn:E; [exact IH | simpl; exact E].
Qed.

Lemma drop_while_outside (s : str) :
  starts_with cls s = false -> drop_while cls s = s.
Proof. destruct s as [|c r]; simpl; [reflexivity | now intros ->]. Qed.

Lemma take_while_outside (s : str) :
  starts_with cls s = false -> take_while cls s = [].
Proof. destruct s as [|c r]; simpl; [reflexivity | now intros ->]. Qed.

Lemma take_while_run (run rest : str) :
  Forall (fun c => cls c = true) run -> starts_with cls rest = false ->
  take_while cls (run ++ rest) = run /\ drop_while cls (run ++ rest) = rest.
Proof.
  intros Hrun Hrest. induction Hrun as [|c run Hc _ [IH1 IH2]]; simpl.
  - split; [now apply take_while_outside | now apply drop_while_outside].
  - rewrite Hc. split; [now f_equal | assumption].
Qed.

(** Scanning after a match resumes behind the run. *)
Lemma re_sub_run_skip (t : str) :
  (fix skip (t : str) : str :=
     match t with
     | [] => []
     | d :: t' => if cls d then skip t' else d :: re_sub_run cls m repl t'
     end) t
  = sub (drop_while cls t).
Proof.
  induction t as [|d t' IH]; [reflexivity|].
  simpl drop_while. destruct (cls d) eqn:E; [exact IH|].
  unfold sub. simpl. rewrite E. simpl.
  destruct m; [lia | reflexivity].
Qed.

Lemma re_sub_run_cons (c : char) (r : str) :
  sub (c :: r) =
  if (m <=? length (take_while cls (c :: r)))%nat
  then repl ++ sub (drop_while cls r)
  else c :: sub r.
Proof.
  unfold sub at 1. cbv beta iota delta [re_sub_run]. fold re_sub_run.
  rewrite re_sub_run_skip. reflexivity.
Qed.

Lemma re_sub_run_keep (c : char) (r : str) :
  (length (take_while cls (c :: r)) < m)%nat -> sub (c :: r) = c :: sub r.
Proof.
  intros H. rewrite re_sub_run_cons.
  destruct (Nat.leb_spec m (length (take_while cls (c :: r)))); [lia | reflexivity].
Qed.

Lemma re_sub_run_match (run rest : str) :
  (m <= length run)%nat -> Forall (fun c => cls c = true) run ->
  starts_with cls rest = false ->
  sub (run ++ rest) = repl ++ sub rest.
Proof.
  intros Hlen Hrun Hrest.
  destruct (take_while_run run rest Hrun Hrest) as [Ht Hd].
  destruct run as [|c run]; [simpl in Hlen; lia|].
  simpl app in *. rewrite re_sub_run_cons, Ht.
  destruct (Nat.leb_spec m (length (c :: run))); [|lia].
  inversion Hrun as [|? ? Hc _]; subst.
  simpl in Hd. rewrite Hc in Hd. now rewrite Hd.
Qed.

Lemma re_sub_run_outside (c : char) (r : str) :
  cls c = false -> sub (c :: r) = c :: sub r.
Proof.
  intros H. apply re_sub_run_keep. simpl. rewrite H. simpl. lia.
Qed.

(** The induction that follows the scan: a kept character, or a replaced
    run followed by a text that starts outside the class. *)
Lemma re_sub_run_ind (P : str -> str -> Prop) :
  P [] [] ->
  (forall c r,
      (length (take_while cls (c :: r)) < m)%nat ->
      P r (sub r) -> P (c :: r) (c :: sub r)) ->
  (forall run rest,
      (m <= length run)%nat -> Forall (fun c => cls c = true) run ->
      starts_with cls rest = false ->
      P rest (sub rest) -> P (run ++ rest) (repl ++ sub rest)) ->
  forall s, P s (sub s).
Proof.
  intros Hnil Hkeep Hmatch.
  assert (H : forall n s, (length s <= n)%nat -> P s (sub s)).
  { induction n as [|n IH]; intros s Hs.
    - destruct s; [exact Hnil | simpl in Hs; lia].
    - destruct s as [|c r]; [exact Hnil|].
      destruct (Nat.leb_spec m (length (take_while cls (c :: r)))) as [Hge|Hlt].
      + rewrite <- (take_drop_while (c :: r)).
        rewrite re_sub_run_match;
          [|assumption | apply take_while_all | apply drop_while_start].
        apply Hmatch;
          [assumption | apply take_while_all | apply drop_while_start |].
        apply IH.
        assert (length (take_while cls (c :: r) ++ drop_while cls (c :: r))
                = length (c :: r)) by now rewrite take_drop_while.
        rewrite length_app in H.
        change (length (c :: r)) with (S (length r)) in H, Hs. lia.
      + rewrite re_sub_run_keep by assumption.
        apply Hkeep; [assumption|]. apply IH. simpl in Hs. lia. }
  intros s. now apply (H (length s)).
Qed.

(** A property of all characters of the text and of the replacement
    holds of all characters of the result. *)
Lemma re_sub_run_Forall (Q : char -> Prop) (s : str) :
  Forall Q repl -> Forall Q s -> Forall Q (sub s).
Proof.
  intros Hrepl. apply (re_sub_run_ind (fun s out => Forall Q s -> Forall Q out)).
  - trivial.
  - intros c r _ IH H. inversion H; subst. constructor; auto.
  - intros run rest _ _ _ IH H. apply Forall_app in H as [_ H].
    apply Forall_app. auto.
Qed.

(** A leading run that is too short to match is kept as it is. *)
Lemma re_sub_run_take_while (s : str) :
  (length (take_while cls s) < m)%nat ->
  take_while cls (sub s) = take_while cls s.
Proof.
  induction s as [|c r IH]; intros H; [reflexivity|].
  rewrite re_sub_run_keep by assumption.
  simpl in *. destruct (cls c); [|reflexivity].
  f_equal. apply IH. simpl in H. lia.
Qed.

(** A text without a run of [m] is left as it is. *)
Lemma re_sub_run_short_runs (s : str) : short_runs cls m s -> sub s = s.
Proof.
  induction s as [|c r IH]; [reflexivity|].
  intros [H Hr]. rewrite re_sub_run_keep by assumption. f_equal. auto.
Qed.

End ReSub.

(* ------------------------------------------------------------------ *)
(** ** The normaliser: normal form and idempotence *)

Lemma is_lf_not_blank (c : char) : is_lf c = true -> is_blank c = false.
Proof.
  unfold is_lf, is_blank. intros H. apply N.eqb_eq in H. now subst.
Qed.

Lemma replace_cr_no_cr (s : str) :
  Forall (fun c => c <> CR) (replace_char CR LF s).
Proof.
  unfold replace_char. apply Forall_map, Forall_forall. intros c _.
  destruct (N.eqb_spec c CR); [discriminate | assumption].
Qed.

Lemma replace_cr_id (s : str) :
  Forall (fun c => c <> CR) s -> replace_char CR LF s = s.
Proof.
  induction 1 as [|c r Hc _ IH]; simpl; [reflexivity|].
  destruct (N.eqb_spec c CR); [contradiction | now f_equal].
Qed.

(** *** Single spaces *)

Lemma blank_nf_suffix (p s : str) : blank_nf (p ++ s) -> blank_nf s.
Proof. induction p as [|c p IH]; simpl; [trivial | intros [_ H]; auto]. Qed.

Lemma starts_with_app (cls : char -> bool) (s q : str) :
  starts_with cls (s ++ q) = false -> starts_with cls s = false.
Proof. destruct s; simpl; auto. Qed.

Lemma blank_nf_prefix (s q : str) : blank_nf (s ++ q) -> blank_nf s.
Proof.
  induction s as [|c r IH]; simpl; [trivial|].
  intros [H Hr]. split; [|auto].
  intros Hc. destruct (H Hc) as [-> Hs]. split; [reflexivity|].
  now apply starts_with_app with q.
Qed.

Lemma sub_blank_start (s : str) :
  starts_with is_blank s = false ->
  starts_with is_blank (re_sub_run is_blank 1 [SP] s) = false.
Proof.
  destruct s as [|c r]; [reflexivity|]. simpl starts_with at 1. intros Hc.
  rewrite re_sub_run_outside by (lia || assumption). exact Hc.
Qed.

Lemma sub_blank_nf (s : str) : blank_nf (re_sub_run is_blank 1 [SP] s).
Proof.
  apply (re_sub_run_ind is_blank 1 [SP] ltac:(lia) (fun _ out => blank_nf out)).
  - exact I.
  - intros c r Hlt IH. simpl. split; [|exact IH].
    intros Hc. simpl in Hlt. rewrite Hc in Hlt. simpl in Hlt. lia.
  - intros run rest _ _ Hrest IH. simpl. split; [|exact IH].
    intros _. split; [reflexivity|]. now apply sub_blank_start.
Qed.

Lemma sub_blank_id (s : str) :
  blank_nf s -> re_sub_run is_blank 1 [SP] s = s.
Proof.
  induction s as [|c r IH]; [reflexivity|]. intros [H Hr].
  destruct (is_blank c) eqn:Hc.
  - destruct (H eq_refl) as [-> Hs].
    change (SP :: r) with ([SP] ++ r).
    rewrite re_sub_run_match; simpl; auto.
    now rewrite IH.
  - rewrite re_sub_run_outside by (lia || assumption). now rewrite IH.
Qed.

Lemma sub_lf_blank_nf (s : str) :
  blank_nf s ->
  blank_nf (re_sub_run is_lf 3 [LF; LF] s)
  /\ starts_with is_blank (re_sub_run is_lf 3 [LF; LF] s)
     = starts_with is_blank s.
Proof.
  apply (re_sub_run_ind is_lf 3 [LF; LF] ltac:(lia)
           (fun s out => blank_nf s ->
                         blank_nf out /\
                         starts_with is_blank out = starts_with is_blank s)).
  - auto.
  - intros c r _ IH [H Hr]. destruct (IH Hr) as [IH1 IH2].
    split; [|reflexivity]. simpl. split; [|exact IH1].
    intros Hc. destruct (H Hc) as [-> Hs]. split; [reflexivity | congruence].
  - intros run rest Hlen Hrun _ IH H.
    apply blank_nf_suffix in H. destruct (IH H) as [IH1 _].
    destruct run as [|c run]; [simpl in Hlen; lia|].
    inversion Hrun as [|? ? Hc _]; subst.
    split.
    + simpl. repeat split; try discriminate. exact IH1.
    + simpl. symmetry. now apply is_lf_not_blank.
Qed.

(** *** At most two line feeds in a row *)

Lemma take_while_app_le (cls : char -> bool) (s q : str) :
  (length (take_while cls s) <= length (take_while cls (s ++ q)))%nat.
Proof.
  induction s as [|c r IH]; simpl; [lia|].
  destruct (cls c); simpl; lia.
Qed.

Lemma short_runs_suffix (cls : char -> bool) (m : nat) (p s : str) :
  short_runs cls m (p ++ s) -> short_runs cls m s.
Proof. induction p as [|c p IH]; simpl; [trivial | intros [_ H]; auto]. Qed.

Lemma short_runs_prefix (cls : char -> bool) (m : nat) (s q : str) :
  short_runs cls m (s ++ q) -> short_runs cls m s.
Proof.
  induction s as [|c r IH]; [simpl; trivial|].
  intros [H Hr]. split; [|auto].
  pose proof (take_while_app_le cls (c :: r) q). simpl app in *. lia.
Qed.

Lemma sub_lf_short_runs (s : str) :
  short_runs is_lf 3 (re_sub_run is_lf 3 [LF; LF] s).
Proof.
  apply (re_sub_run_ind is_lf 3 [LF; LF] ltac:(lia)
           (fun _ out => short_runs is_lf 3 out)).
  - exact I.
  - intros c r Hlt IH. split; [|exact IH].
    simpl in *. destruct (is_lf c); [|simpl; lia].
    simpl in *. rewrite re_sub_run_take_while; lia.
  - intros run rest _ _ Hrest IH.
    assert (Hout : take_while is_lf (re_sub_run is_lf 3 [LF; LF] rest) = []).
    { destruct rest as [|d rest]; [reflexivity|]. simpl in Hrest.
      rewrite re_sub_run_outside by (lia || assumption).
      simpl. now rewrite Hrest. }
    simpl. rewrite Hout. simpl. repeat split; try lia. exact IH.
Qed.

(** *** The normal form *)

Lemma clean_nf_segment (p s q : str) : clean_nf (p ++ s ++ q) -> clean_nf s.
Proof.
  intros (Hcr & Hb & Hl). repeat split.
  - apply Forall_app in Hcr as [_ Hcr]. now apply Forall_app in Hcr as [Hcr _].
  - apply blank_nf_suffix in Hb. now apply blank_nf_prefix in Hb.
  - apply short_runs_suffix in Hl. now apply short_runs_prefix in Hl.
Qed.

(** The three substitutions of [clean_text] give a normal form. *)
Lemma clean_steps_nf (s : str) :
  clean_nf (re_sub_run is_lf 3 [LF; LF]
              (re_sub_run is_blank 1 [SP] (replace_char CR LF s))).
Proof.
  repeat split.
  - apply re_sub_run_Forall; [lia | repeat constructor; discriminate |].
    apply re_sub_run_Forall; [lia | repeat constructor; discriminate |].
    apply replace_cr_no_cr.
  - apply sub_lf_blank_nf, sub_blank_nf.
  - apply sub_lf_short_runs.
Qed.

(** On a normal form the three substitutions change nothing. *)
Lemma clean_steps_id (s : str) :
  clean_nf s ->
  re_sub_run is_lf 3 [LF; LF]
    (re_sub_run is_blank 1 [SP] (replace_char CR LF s)) = s.
Proof.
  intros (Hcr & Hb & Hl).
  rewrite replace_cr_id by assumption.
  rewrite sub_blank_id by assumption.
  apply re_sub_run_short_runs; [lia | assumption].
Qed.

Lemma clean_text_nf (T : str) : clean_nf (clean_text T).
Proof.
  unfold clean_text.
  destruct (strip_segment
              (re_sub_run is_lf 3 [LF; LF]
                 (re_sub_run is_blank 1 [SP] (replace_char CR LF T))))
    as (p & q & Hseg).
  apply (clean_nf_segment p _ q). rewrite <- Hseg. apply clean_steps_nf.
Qed.

Lemma clean_text_stripped (T : str) : strip (clean_text T) = clean_text T.
Proof. unfold clean_text. apply strip_idem. Qed.

(** C8. [clean_text] is idempotent. *)
Theorem clean_text_idempotent (T : str) :
  clean_text (clean_text T) = clean_text T.
Proof.
  unfold clean_text at 1.
  rewrite clean_steps_id by apply clean_text_nf.
  apply clean_text_stripped.
Qed.

Example clean_text_sample :
  clean_text ([SP; SP] ++ lit "a" ++ [TAB; SP] ++ lit "b" ++ [CR; LF; LF; LF]
              ++ lit "c" ++ [LF; SP])
  = lit "a b" ++ [LF; LF] ++ lit "c".
Proof. reflexivity. Qed.

Example sub_tags_sample :
  sub_tags (lit "a<b>c<>d<e f>g<h") = lit "a c<>d g<h".
Proof. reflexivity. Qed.

(* ------------------------------------------------------------------ *)
(** ** PDF extraction: the tier-1 test *)

(** The truncated product is the integer part of the exact product. *)
Lemma int_0_3_times_floor (k : Z) :
  int_0_3_times k = Qfloor ((3 # 10) * inject_Z k).
Proof.
  unfold int_0_3_times, Qfloor, Qmult, inject_Z. reflexivity.
Qed.

Lemma count_non_empty_nonneg (pages : list str) : 0 <= count_non_empty pages.
Proof. unfold count_non_empty. lia. Qed.

(** The test of line 83 as an inequality between integers; the guard
    on the page list adds nothing, since no page means no usable page. *)
Lemma tier1_accepted_int (pages : list str) :
  tier1_accepted pages = true <->
  Z.max 1 (int_0_3_times (Z.of_nat (length pages))) <= count_non_empty pages.
Proof.
  unfold tier1_accepted.
  rewrite andb_true_iff, Z.leb_le. split; [tauto|].
  intros H. split; [|exact H].
  destruct pages as [|p ps]; [|reflexivity].
  unfold count_non_empty in H. simpl in H. lia.
Qed.

Lemma tier1_rejected_int (pages : list str) :
  tier1_accepted pages = false <->
  count_non_empty pages < Z.max 1 (int_0_3_times (Z.of_nat (length pages))).
Proof.
  pose proof (tier1_accepted_int pages) as [H1 H2].
  destruct (tier1_accepted pages).
  - split; [discriminate|]. intros Hlt. specialize (H1 eq_refl). lia.
  - split; [|reflexivity]. intros _.
    apply Z.nle_gt. intros Hge. specialize (H2 Hge). discriminate.
Qed.

(** The same test, with the truncated product written as the integer
    part of the exact product. *)
Lemma tier1_accepted_iff (pages : list str) :
  tier1_accepted pages = true <->
  Z.max 1 (Qfloor ((3 # 10) * inject_Z (Z.of_nat (length pages))))
  <= count_non_empty pages.
Proof.
  rewrite <- int_0_3_times_floor. apply tier1_accepted_int.
Qed.

(** Every list of page texts is what tier 1 yields for some reader. *)
Lemma extract_pdf_pypdf_of_texts (pages : list str) :
  extract_pdf_pypdf (Some (map (fun t => PageText (Some t)) pages)) = pages.
Proof.
  unfold extract_pdf_pypdf.
  assert (H : read_pages (map (fun t => PageText (Some t)) pages) = Some pages).
  { induction pages as [|t pages IH]; [reflexivity|]. simpl. now rewrite IH. }
  now rewrite H.
Qed.

(** With tier 1 accepted, [extract_pdf_text] returns the tier-1 pages and
    does not look at the fallback. *)
Lemma extract_pdf_text_tier1 (reader : option (list page_read))
    (miner : option (option str)) :
  tier1_accepted (extract_pdf_pypdf reader) = true ->
  extract_pdf_text reader miner = (extract_pdf_pypdf reader, false).
Proof. intros H. unfold extract_pdf_text. now rewrite H. Qed.

(** With tier 1 not accepted, [extract_pdf_text] returns what the
    fallback alone gives. *)
Lemma extract_pdf_text_fallback (reader : option (list page_read))
    (miner : option (option str)) :
  tier1_accepted (extract_pdf_pypdf reader) = false ->
  extract_pdf_text reader miner = extract_pdf_text None miner.
Proof. intros H. unfold extract_pdf_text. now rewrite H. Qed.

(** C5, as stated, fails: of four pages one is usable; the exact
    threshold [max(1, 1.2)] is not met, and still [extract_pdf_text]
    returns the four tier-1 pages with [needs_ocr = false], whatever the
    fallback extractor would give. *)
Lemma tier1_sufficient_below_exact_threshold :
  ~ exact_threshold_met (extract_pdf_pypdf (pdf_reader one_in_four_pdf))
  /\ (forall miner,
        extract_pdf_text (pdf_reader one_in_four_pdf) miner
        = (extract_pdf_pypdf (pdf_reader one_in_four_pdf), false)).
Proof.
  split.
  - unfold exact_threshold_met. vm_compute. intros H. now apply H.
  - intros miner. now apply extract_pdf_text_tier1.
Qed.

(** C5, amended. [extract_pdf_text] accepts the tier-1 result as
    sufficient, that is, it returns the tier-1 pages with
    [needs_ocr = false] whatever the fallback extractor would give, if
    and only if the count of tier-1 pages whose stripped text is longer
    than 30 characters is at least [max(1, floor(0.3 * total_pages))]:
    the product is truncated to an integer before the comparison. When
    the count is below that, the result is the one the fallback alone
    gives. By [extract_pdf_pypdf_of_texts] the tier-1 pages range over
    every list of texts. *)
Theorem extract_pdf_text_tier1_iff (reader : option (list page_read)) :
  ((forall miner,
       extract_pdf_text reader miner = (extract_pdf_pypdf reader, false))
   <->
   Z.max 1 (Qfloor ((3 # 10)
      * inject_Z (Z.of_nat (length (extract_pdf_pypdf reader)))))
   <= count_non_empty (extract_pdf_pypdf reader))
  /\ (count_non_empty (extract_pdf_pypdf reader)
      < Z.max 1 (Qfloor ((3 # 10)
           * inject_Z (Z.of_nat (length (extract_pdf_pypdf reader))))) ->
      forall miner,
        extract_pdf_text reader miner = extract_pdf_text None miner).
Proof.
  rewrite <- int_0_3_times_floor. split; [split|].
  - intros Hall. apply tier1_accepted_int.
    destruct (tier1_accepted (extract_pdf_pypdf reader)) eqn:E; [reflexivity|].
    specialize (Hall None).
    rewrite (extract_pdf_text_fallback reader None E) in Hall.
    discriminate.
  - intros H miner. apply extract_pdf_text_tier1.
    now apply tier1_accepted_int.
  - intros H miner. apply extract_pdf_text_fallback.
    now apply tier1_rejected_int.
Qed.

Lemma extract_pdf_text_tier1_iff_witness :
  (forall miner,
      extract_pdf_text (pdf_reader one_in_four_pdf) miner
      = (extract_pdf_pypdf (pdf_reader one_in_four_pdf), false))
  /\ (forall miner,
        extract_pdf_text (pdf_reader scanned_pdf) miner
        = extract_pdf_text None miner).
Proof.
  split.
  - destruct (extract_pdf_text_tier1_iff (pdf_reader one_in_four_pdf))
      as [[_ H] _].
    apply H. vm_compute. discriminate.
  - destruct (extract_pdf_text_tier1_iff (pdf_reader scanned_pdf)) as [_ H].
    apply H. vm_compute. reflexivity.
Defined.

(* ------------------------------------------------------------------ *)
(** ** Documents that need OCR *)

Lemma extract_pdf_text_needs_ocr (reader : option (list page_read))
    (miner : option (option str)) :
  tier1_accepted (extract_pdf_pypdf reader) = false ->
  no_usable_text (extract_pdf_pdfminer miner) ->
  extract_pdf_text reader miner = ([], true).
Proof.
  intros H1 H2. unfold extract_pdf_text. rewrite H1.
  unfold no_usable_text in H2. rewrite H2.
  now rewrite andb_false_r.
Qed.

(** C6, as stated, fails: with one usable page out of four the count is
    below the exact [max(1, 1.2)] and the fallback finds nothing, yet the
    document is not classified as needing OCR: its usable page is
    chunked. *)
Lemma one_in_four_is_not_placeholder :
  ~ exact_threshold_met (extract_pdf_pypdf (pdf_reader one_in_four_pdf))
  /\ no_usable_text (extract_pdf_pdfminer (pdfminer_text one_in_four_pdf))
  /\ build_chunks_for_doc ascii_lower sample_row one_in_four_pdf
     = Ret [text_row sample_row pdf_path 1 usable_page]
  /\ build_chunks_for_doc ascii_lower sample_row one_in_four_pdf
     <> Ret [placeholder_row sample_row pdf_path].
Proof.
  split; [|split; [|split]].
  - unfold exact_threshold_met. vm_compute. intros H. now apply H.
  - reflexivity.
  - vm_compute. reflexivity.
  - intros H. vm_compute in H. discriminate.
Qed.

(** C6, amended. For a PDF whose tier-1 pages with usable text are fewer
    than [max(1, floor(0.3 * pages))] and whose fallback pages hold no
    usable text, [build_chunks_for_doc] returns exactly one record, the
    placeholder with [needs_ocr = true], [page = None] and empty text;
    nothing is raised and [main] goes on with the next catalogue row. *)
Theorem scanned_pdf_gives_placeholder (lower : str -> str)
    (row : SourceRecord) (f : RawFile) :
  lower (suffix (file_path f)) = lit ".pdf" ->
  count_non_empty (extract_pdf_pypdf (pdf_reader f))
  < Z.max 1 (Qfloor ((3 # 10)
       * inject_Z (Z.of_nat (length (extract_pdf_pypdf (pdf_reader f)))))) ->
  no_usable_text (extract_pdf_pdfminer (pdfminer_text f)) ->
  exists r,
    build_chunks_for_doc lower row f = Ret [r]
    /\ c_needs_ocr r = true /\ c_page r = None /\ c_text r = []
    /\ c_doc_id r = doc_id row
    /\ forall rest files all_rows missing,
         resolve lower row files = Some f ->
         main_loop lower (row :: rest) files all_rows missing
         = main_loop lower rest files (all_rows ++ [r]) missing.
Proof.
  intros Hext H1 H2.
  rewrite <- int_0_3_times_floor in H1. apply tier1_rejected_int in H1.
  exists (placeholder_row row (file_path f)).
  assert (Hb : build_chunks_for_doc lower row f
               = Ret [placeholder_row row (file_path f)]).
  { unfold build_chunks_for_doc, read_document. rewrite Hext.
    change (str_eqb (lit ".pdf") (lit ".pdf")) with true. cbv iota.
    now rewrite extract_pdf_text_needs_ocr. }
  repeat split; try assumption.
  intros rest files all_rows missing Hres. simpl. now rewrite Hres, Hb.
Qed.

Lemma scanned_pdf_gives_placeholder_witness :
  exists r,
    build_chunks_for_doc ascii_lower sample_row scanned_pdf = Ret [r]
    /\ c_needs_ocr r = true /\ c_page r = None /\ c_text r = []
    /\ c_doc_id r = doc_id sample_row
    /\ forall rest files all_rows missing,
         resolve ascii_lower sample_row files = Some scanned_pdf ->
         main_loop ascii_lower (sample_row :: rest) files all_rows missing
         = main_loop ascii_lower rest files (all_rows ++ [r]) missing.
Proof.
  apply (scanned_pdf_gives_placeholder ascii_lower sample_row scanned_pdf).
  - reflexivity.
  - vm_compute. reflexivity.
  - reflexivity.
Defined.

(* ------------------------------------------------------------------ *)
(** ** Chunk records hold readable text *)

(** Every window of the walk is longer than the overlap. *)
Lemma window_longer_than_overlap (text : str) (size overlap : Z) (k : nat) :
  0 <= overlap -> overlap < size -> size < len text ->
  (k <= last_window (len text) size (size - overlap))%nat ->
  overlap < len (window text size (size - overlap) k).
Proof.
  intros H0 H1 Hlong Hk.
  pose proof (window_bounds text size overlap H0 H1 Hlong k Hk) as (B0 & B1 & B2).
  pose proof (last_window_reaches_end text size overlap H1 Hlong) as Hend.
  pose proof (last_window_is_first text size overlap H1 Hlong) as Hfirst.
  cbv zeta in *. unfold window. rewrite slice_length by lia.
  set (m := last_window (len text) size (size - overlap)) in *.
  destruct (Nat.eq_dec k m) as [->|Hne].
  - destruct m as [|m']; [simpl in Hend; lia|].
    specialize (Hfirst m' ltac:(lia)). lia.
  - specialize (Hfirst k ltac:(lia)). lia.
Qed.

(** With the default size and overlap, a trimmed text of at least 30
    characters is cut into chunks of at least 30 characters. *)
Lemma default_chunks_readable (t : str) :
  strip t = t -> 30 <= len t ->
  exists chs,
    chunk_text t CHUNK_SIZE CHUNK_OVERLAP = Ret chs
    /\ Forall (fun ch => 30 <= len ch) chs.
Proof.
  intros Ht Hlen.
  destruct (Z.le_gt_cases (len t) CHUNK_SIZE) as [Hshort|Hlong].
  - exists [t]. split; [|now repeat constructor].
    unfold chunk_text, chunk_text_fuel. rewrite Ht.
    destruct (Z.leb_spec (len t) CHUNK_SIZE); [reflexivity | lia].
  - assert (H1 : CHUNK_SIZE < len (strip t)) by (rewrite Ht; lia).
    assert (H2 : 0 <= CHUNK_OVERLAP < CHUNK_SIZE) by (unfold CHUNK_SIZE, CHUNK_OVERLAP; lia).
    destruct (chunk_text_window_walk_all t CHUNK_SIZE CHUNK_OVERLAP H1 H2) as [Hw _].
    cbv zeta in Hw. rewrite Ht in Hw.
    eexists. split; [exact Hw|].
    apply Forall_map, Forall_forall. intros k Hk. apply in_seq in Hk.
    pose proof (window_longer_than_overlap t CHUNK_SIZE CHUNK_OVERLAP k
                  ltac:(unfold CHUNK_OVERLAP; lia) ltac:(lia) Hlong ltac:(lia)).
    unfold CHUNK_OVERLAP in *. lia.
Qed.

Lemma text_row_readable (row : SourceRecord) (path : Path) (i : Z) (ch : str) :
  30 <= len ch -> readable (text_row row path i ch).
Proof.
  intros H _. simpl. split; [|exact H].
  intros ->. unfold len in H. simpl in H. lia.
Qed.

Lemma page_loop_skips_short (row : SourceRecord) (path : Path) (i : Z)
    (page : str) (rest : list str) (acc : list ChunkRow) :
  len (clean_text page) < 30 ->
  page_loop row path i (page :: rest) acc = page_loop row path (i + 1) rest acc.
Proof.
  intros H. simpl.
  destruct (Z.ltb_spec (len (clean_text page)) 30); [|lia].
  now rewrite orb_true_r.
Qed.

Lemma page_loop_readable (row : SourceRecord) (path : Path) (pages : list str) :
  forall (i : Z) (acc : list ChunkRow),
    Forall readable acc ->
    exists rows, page_loop row path i pages acc = Ret rows /\ Forall readable rows.
Proof.
  induction pages as [|page rest IH]; intros i acc Hacc; [simpl; eauto|].
  destruct (Z.lt_ge_cases (len (clean_text page)) 30) as [Hlt|Hge].
  - rewrite page_loop_skips_short by assumption. now apply IH.
  - destruct (default_chunks_readable (clean_text page)
                (clean_text_stripped page) ltac:(lia)) as (chs & Hchs & Hall).
    simpl. destruct (negb (truthy (clean_text page))
                     || (len (clean_text page) <? 30)); [now apply IH|].
    rewrite Hchs. simpl. apply IH.
    apply Forall_app. split; [exact Hacc|].
    apply Forall_map. revert Hall. apply Forall_impl.
    intros ch. apply text_row_readable.
Qed.

(** C7. [build_chunks_for_doc] always returns, and every record it
    returns with [needs_ocr = false] has a text that is not empty and has
    at least 30 characters: a page whose normalised text is shorter than
    30 characters adds no record, and a page that is kept is cut, with
    the default size and overlap, into chunks of at least 30
    characters. *)
Theorem chunk_rows_readable (lower : str -> str) (row : SourceRecord)
    (f : RawFile) :
  (exists rows,
      build_chunks_for_doc lower row f = Ret rows /\ Forall readable rows)
  /\ (forall path i page rest acc,
        len (clean_text page) < 30 ->
        page_loop row path i (page :: rest) acc
        = page_loop row path (i + 1) rest acc)
  /\ (forall page,
        30 <= len (clean_text page) ->
        exists chs,
          chunk_text (clean_text page) CHUNK_SIZE CHUNK_OVERLAP = Ret chs
          /\ Forall (fun ch => 30 <= len ch) chs).
Proof.
  split; [|split].
  - unfold build_chunks_for_doc.
    destruct (read_document lower f) as [[pages [|]]|].
    + eexists. split; [reflexivity|]. constructor; [|constructor].
      intros H. discriminate.
    + now apply page_loop_readable.
    + eexists. split; [reflexivity | constructor].
  - intros. now apply page_loop_skips_short.
  - intros page H. apply default_chunks_readable; [|exact H].
    apply clean_text_stripped.
Qed.

Lemma chunk_rows_readable_witness :
  (exists rows,
      build_chunks_for_doc ascii_lower sample_row long_text_file = Ret rows
      /\ Forall readable rows)
  /\ page_loop sample_row pdf_path 1 [lit "  corto  "; usable_page] []
     = page_loop sample_row pdf_path 2 [usable_page] [].
Proof.
  destruct (chunk_rows_readable ascii_lower sample_row long_text_file)
    as (H1 & H2 & _).
  split; [exact H1|]. apply H2. vm_compute. reflexivity.
Defined.

Example long_text_file_rows :
  build_chunks_for_doc ascii_lower sample_row long_text_file
  = Ret [text_row sample_row (file_path long_text_file) 1
           (slice (strip text_4500) 0 3800);
         text_row sample_row (file_path long_text_file) 1
           (slice (strip text_4500) 3300 4500)].
Proof. vm_compute. reflexivity. Qed.

(* ------------------------------------------------------------------ *)
(** ** The file of a catalogue row *)

Lemma find_first_match (p : RawFile -> bool) (files : list RawFile) (f : RawFile) :
  first_match p files f -> find p files = Some f.
Proof.
  intros (pre & post & -> & Hf & Hpre).
  induction Hpre as [|g pre Hg _ IH]; simpl.
  - now rewrite Hf.
  - now rewrite Hg.
Qed.

Lemma find_none_Forall (p : RawFile -> bool) (files : list RawFile) :
  Forall (fun g => p g = false) files -> find p files = None.
Proof.
  induction 1 as [|g l Hg _ IH]; simpl; [reflexivity | now rewrite Hg].
Qed.

Lemma find_by_title_empty_key (lower : str -> str) (files : list RawFile) :
  find_by_title lower [] files = None.
Proof.
  unfold find_by_title. apply find_none_Forall, Forall_forall. reflexivity.
Qed.

Lemma find_by_title_key (lower : str -> str) (key : str) (files : list RawFile) :
  key <> [] ->
  find_by_title lower key files
  = find (fun f => contains key (lower (stem (file_path f)))) files.
Proof.
  intros Hkey. unfold find_by_title.
  destruct key as [|c key]; [contradiction | reflexivity].
Qed.

Example title_key_sample :
  title_key ascii_lower (lit "Reglamento de Convivencia Universitaria 2023")
  = lit "reglamento_de_convivencia".
Proof. reflexivity. Qed.

(** C9, as stated, fails: the title ["???"] has no word, its key is
    empty, and every base name contains the empty key; the code still
    finds no file. *)
Lemma resolve_ignores_empty_key :
  title_key ascii_lower (title punct_row) = []
  /\ resolve_as_specified ascii_lower punct_row [other_file] = Some other_file
  /\ resolve ascii_lower punct_row [other_file] = None.
Proof. repeat split; reflexivity. Qed.

(** C9, amended. The first file whose lower-cased base name contains the
    lower-cased [doc_id] is returned. Only if no file matches, and only
    if the key made of the first three alphanumeric words of the
    lower-cased title is not empty, the first file whose lower-cased base
    name contains that key is returned. If no file matches the id and
    the key is empty or matches no file, no file is chosen: the id is
    added to the missing list and the loop goes on with the next row. *)
Theorem resolve_two_stage (lower : str -> str) (row : SourceRecord)
    (files : list RawFile) :
  let by_id := fun f => contains (lower (doc_id row)) (lower (stem (file_path f))) in
  let key := title_key lower (title row) in
  let by_key := fun f => contains key (lower (stem (file_path f))) in
  (forall f, first_match by_id files f -> resolve lower row files = Some f)
  /\ (Forall (fun f => by_id f = false) files -> key <> [] ->
      forall f, first_match by_key files f -> resolve lower row files = Some f)
  /\ (Forall (fun f => by_id f = false) files ->
      key = [] \/ Forall (fun f => by_key f = false) files ->
      resolve lower row files = None
      /\ forall rest all_rows missing,
           main_loop lower (row :: rest) files all_rows missing
           = main_loop lower rest files all_rows (missing ++ [doc_id row])).
Proof.
  intros by_id key by_key. subst by_id key by_key. split; [|split].
  - intros f Hf. unfold resolve, find_by_doc_id.
    now rewrite (find_first_match _ files f Hf).
  - intros Hid Hkey f Hf. unfold resolve, find_by_doc_id.
    rewrite (find_none_Forall _ files Hid).
    rewrite find_by_title_key by assumption.
    now apply find_first_match.
  - intros Hid Hkey.
    assert (Hnone : resolve lower row files = None).
    { unfold resolve, find_by_doc_id.
      rewrite (find_none_Forall _ files Hid).
      destruct Hkey as [->|Hkey]; [apply find_by_title_empty_key|].
      unfold find_by_title. apply find_none_Forall.
      revert Hkey. apply Forall_impl. intros g Hg.
      rewrite Hg. apply andb_false_r. }
    split; [exact Hnone|]. intros rest all_rows missing.
    simpl. now rewrite Hnone.
Qed.

Lemma resolve_two_stage_witness :
  resolve ascii_lower sample_row [other_file; scanned_pdf] = Some scanned_pdf
  /\ resolve ascii_lower punct_row [other_file] = None.
Proof.
  split.
  - destruct (resolve_two_stage ascii_lower sample_row [other_file; scanned_pdf])
      as (H1 & _ & _).
    apply H1. exists [other_file], []. repeat split. now repeat constructor.
  - destruct (resolve_two_stage ascii_lower punct_row [other_file])
      as (_ & _ & H3).
    apply H3.
    + now repeat constructor.
    + left. reflexivity.
Defined.

(* ------------------------------------------------------------------ *)
(** ** A run of scanned documents *)

Lemma placeholder_needs_ocr (lower : str -> str) (rows : list SourceRecord)
    (files : list RawFile) :
  Forall (fun r => c_needs_ocr r = true /\ c_text r = [] /\ c_page r = None)
    (placeholders lower rows files).
Proof.
  unfold placeholders. induction rows as [|row rows IH]; simpl; [constructor|].
  apply Forall_app. split; [|exact IH].
  destruct (resolve lower row files); repeat constructor.
Qed.

Lemma main_loop_ocr_only (lower : str -> str) (files : list RawFile)
    (rows : list SourceRecord) :
  forall all_rows missing,
    (forall row f, In row rows -> resolve lower row files = Some f ->
                   needs_ocr_doc lower f) ->
    main_loop lower rows files all_rows missing
    = Ret (all_rows ++ placeholders lower rows files,
           missing ++ unresolved lower rows files).
Proof.
  induction rows as [|row rows IH]; intros all_rows missing Hocr.
  - simpl. now rewrite !app_nil_r.
  - assert (Hrest : forall row' f, In row' rows ->
                      resolve lower row' files = Some f -> needs_ocr_doc lower f)
      by (intros row' f Hin; apply Hocr; now right).
    unfold placeholders, unresolved. simpl.
    destruct (resolve lower row files) as [f|] eqn:Hres.
    + destruct (Hocr row f (or_introl eq_refl) Hres) as [pages Hdoc].
      unfold build_chunks_for_doc. rewrite Hdoc. simpl.
      rewrite IH by assumption. unfold placeholders, unresolved.
      now rewrite <- app_assoc.
    + rewrite IH by assumption. unfold placeholders, unresolved.
      now rewrite <- app_assoc.
Qed.

(** C10. When the catalogue loads, at least one row has a file, and
    every file chosen for a row is classified as needing OCR, [main]
    does not exit: it saves a table that is not empty and consists of the
    placeholder records ([needs_ocr = true], empty text, no page) of the
    rows that have a file. *)
Theorem ocr_only_run_is_saved (lower : str -> str) (df : DataFrame)
    (files : list RawFile) :
  check_columns required (columns df) = Ret tt ->
  (exists row f, In row (records df) /\ resolve lower row files = Some f) ->
  (forall row f, In row (records df) -> resolve lower row files = Some f ->
                 needs_ocr_doc lower f) ->
  exists report,
    main lower (Some df) files = Ret report
    /\ saved report = placeholders lower (records df) files
    /\ saved report <> []
    /\ Forall (fun r => c_needs_ocr r = true /\ c_text r = [] /\ c_page r = None)
         (saved report).
Proof.
  intros Hcols (row & f & Hin & Hres) Hocr.
  assert (Hfiles : truthy files = true).
  { destruct files; [|reflexivity]. unfold resolve in Hres. discriminate. }
  assert (Hne : placeholders lower (records df) files <> []).
  { unfold placeholders. intros Hnil.
    pose proof (in_flat_map
                  (fun row => match resolve lower row files with
                              | Some f => [placeholder_row row (file_path f)]
                              | None => []
                              end)
                  (records df) (placeholder_row row (file_path f))) as [_ H].
    rewrite Hnil in H. apply H. exists row. split; [exact Hin|].
    rewrite Hres. now left. }
  exists {| saved := placeholders lower (records df) files;
            not_found := unresolved lower (records df) files |}.
  split; [|split; [reflexivity | split; [exact Hne | apply placeholder_needs_ocr]]].
  unfold main, read_sources_csv. rewrite Hcols. simpl.
  rewrite Hfiles. simpl.
  rewrite main_loop_ocr_only by assumption. simpl.
  destruct (placeholders lower (records df) files); [contradiction | reflexivity].
Qed.

Lemma ocr_only_run_is_saved_witness :
  exists report,
    main ascii_lower (Some sample_catalogue) [other_file; scanned_pdf] = Ret report
    /\ saved report
       = placeholders ascii_lower (records sample_catalogue) [other_file; scanned_pdf]
    /\ saved report <> []
    /\ Forall (fun r => c_needs_ocr r = true /\ c_text r = [] /\ c_page r = None)
         (saved report).
Proof.
  apply (ocr_only_run_is_saved ascii_lower sample_catalogue [other_file; scanned_pdf]).
  - reflexivity.
  - exists sample_row, scanned_pdf. split; [right; left; reflexivity | reflexivity].
  - intros row f [<-|[<-|[]]] H; vm_compute in H; inversion H; subst.
    exists []. reflexivity.
Defined.

(* ================================================================== *)
(** * Further properties of the code *)

(** ** The chunker: reassembly, bounds, termination *)

Lemma firstn_app_skipn (a b : nat) (t : str) :
  firstn a t ++ firstn b (skipn a t) = firstn (a + b) t.
Proof.
  rewrite <- (firstn_skipn a (firstn (a + b) t)).
  rewrite firstn_firstn, skipn_firstn_comm.
  replace (Nat.min a (a + b)) with a by lia.
  now replace (a + b - a)%nat with b by lia.
Qed.

Lemma slice_segment (t : str) (lo hi : Z) :
  0 <= lo -> lo <= hi -> hi <= len t -> segment_of (slice t lo hi) t.
Proof.
  intros H0 H1 H2. rewrite slice_inside by assumption.
  exists (firstn (Z.to_nat lo) t),
         (skipn (Z.to_nat (hi - lo)) (skipn (Z.to_nat lo) t)).
  now rewrite firstn_skipn, firstn_skipn.
Qed.

Lemma reassemble_snoc (overlap : Z) (c0 : str) (cs : list str) (c : str) :
  reassemble overlap ((c0 :: cs) ++ [c])
  = reassemble overlap (c0 :: cs) ++ skipn (Z.to_nat overlap) c.
Proof.
  simpl. rewrite flat_map_app. simpl. now rewrite app_nil_r, app_assoc.
Qed.

Section Reassembly.

Variables (text : str) (size overlap : Z).
Hypothesis overlap_nonneg : 0 <= overlap.
Hypothesis overlap_small : overlap < size.
Hypothesis text_long : size < len text.

Let step := size - overlap.
Let m := last_window (len text) size step.

(** The first [k + 1] windows rebuild the text up to the end of window
    [k]. *)
Lemma reassemble_prefix (k : nat) :
  (k <= m)%nat ->
  reassemble overlap (map (window text size step) (seq 0 (S k)))
  = firstn (Z.to_nat (Z.min (len text) (Z.of_nat k * step + size))) text.
Proof.
  assert (Hs : 0 < step) by (unfold step; lia).
  induction k as [|k IH]; intros Hk.
  - simpl. rewrite app_nil_r. unfold window.
    rewrite slice_inside by (simpl; lia). simpl.
    now rewrite Z.sub_0_r.
  - specialize (IH ltac:(lia)).
    pose proof (last_window_is_first text size overlap overlap_small text_long k
                  ltac:(fold step; fold m; lia)) as Hin.
    fold step in Hin.
    destruct (window_bounds text size overlap overlap_nonneg overlap_small
                text_long (S k) ltac:(fold step; fold m; lia)) as (B0 & B1 & B2).
    fold step in B0, B1, B2.
    rewrite (seq_S (S k) 0), map_app.
    change (map (window text size step) [(0 + S k)%nat])
      with [window text size step (S k)].
    change (map (window text size step) (seq 0 (S k)))
      with (window text size step 0 :: map (window text size step) (seq 1 k)).
    rewrite reassemble_snoc.
    change (window text size step 0 :: map (window text size step) (seq 1 k))
      with (map (window text size step) (seq 0 (S k))).
    rewrite IH.
    rewrite Z.min_r by lia.
    unfold window at 1. rewrite slice_inside by lia.
    rewrite skipn_firstn_comm, skipn_skipn.
    replace (Z.to_nat overlap + Z.to_nat (Z.of_nat (S k) * step))%nat
      with (Z.to_nat (Z.of_nat k * step + size)) by (unfold step in *; lia).
    rewrite firstn_app_skipn. f_equal. unfold step in *. lia.
Qed.

Lemma reassemble_windows :
  reassemble overlap (map (window text size step) (seq 0 (S m))) = text.
Proof.
  rewrite reassemble_prefix by lia.
  pose proof (last_window_reaches_end text size overlap overlap_small text_long)
    as Hend. fold step in Hend. fold m in Hend.
  rewrite Z.min_l by lia. unfold len. rewrite Nat2Z.id. apply firstn_all.
Qed.

End Reassembly.

Lemma chunk_text_reassemble_chunks (T : str) (size overlap : Z) :
  0 <= overlap < size ->
  exists chunks,
    chunk_text T size overlap = Ret chunks
    /\ reassemble overlap chunks = strip T.
Proof.
  intros [H0 H1].
  destruct (Z.le_gt_cases (len (strip T)) size) as [Hshort|Hlong].
  - exists [strip T]. split; [|simpl; apply app_nil_r].
    unfold chunk_text, chunk_text_fuel.
    destruct (Z.leb_spec (len (strip T)) size); [reflexivity | lia].
  - destruct (chunk_text_window_walk_all T size overlap Hlong (conj H0 H1))
      as [Hw _]. cbv zeta in Hw.
    eexists. split; [exact Hw|].
    now apply reassemble_windows.
Qed.

(** X1. With [0 <= overlap < size], [chunk_text] returns chunks from
    which the trimmed text is rebuilt exactly: the first chunk followed
    by every later chunk without its first [overlap] characters. *)
Theorem chunk_text_reassembles (T : str) (size overlap : Z) :
  0 <= overlap < size ->
  exists chunks,
    chunk_text T size overlap = Ret chunks
    /\ reassemble overlap chunks = strip T.
Proof. apply chunk_text_reassemble_chunks. Qed.

Lemma chunk_text_reassembles_witness :
  exists chunks,
    chunk_text text_10 4 1 = Ret chunks
    /\ reassemble 1 chunks = strip text_10.
Proof. apply (chunk_text_reassembles text_10 4 1). lia. Defined.

(** X2. With [0 <= overlap < size], [chunk_text] returns at least one
    chunk, and every chunk is a contiguous part of the trimmed text of at
    most [size] characters. *)
Theorem chunk_text_chunks_bounded (T : str) (size overlap : Z) :
  0 <= overlap < size ->
  exists chunks,
    chunk_text T size overlap = Ret chunks
    /\ chunks <> []
    /\ Forall (fun ch => len ch <= size /\ segment_of ch (strip T)) chunks.
Proof.
  intros [H0 H1].
  destruct (Z.le_gt_cases (len (strip T)) size) as [Hshort|Hlong].
  - exists [strip T]. split; [|split; [discriminate|]].
    + unfold chunk_text, chunk_text_fuel.
      destruct (Z.leb_spec (len (strip T)) size); [reflexivity | lia].
    + constructor; [|constructor]. split; [exact Hshort|].
      exists [], []. now rewrite app_nil_r.
  - destruct (chunk_text_window_walk_all T size overlap Hlong (conj H0 H1))
      as [Hw _]. cbv zeta in Hw.
    eexists. split; [exact Hw|]. split; [discriminate|].
    apply Forall_map, Forall_forall. intros k Hk. apply in_seq in Hk.
    destruct (window_bounds (strip T) size overlap H0 H1 Hlong k ltac:(lia))
      as (B0 & B1 & B2).
    unfold window. split.
    + rewrite slice_length by lia. lia.
    + apply slice_segment; lia.
Qed.

Lemma chunk_text_chunks_bounded_witness :
  exists chunks,
    chunk_text text_4500 CHUNK_SIZE CHUNK_OVERLAP = Ret chunks
    /\ chunks <> []
    /\ Forall (fun ch => len ch <= CHUNK_SIZE /\ segment_of ch (strip text_4500))
         chunks.
Proof.
  apply (chunk_text_chunks_bounded text_4500 CHUNK_SIZE CHUNK_OVERLAP).
  unfold CHUNK_SIZE, CHUNK_OVERLAP. lia.
Defined.

(** X3. [chunk_text] returns exactly when [overlap < size], or the
    trimmed text has at most [size] characters, or the trimmed text is
    empty. In the remaining case, [overlap >= size] with a trimmed text
    that is not empty and longer than [size], the loop never ends,
    whatever the number of iterations allowed. *)
Theorem chunk_text_returns_iff (T : str) (size overlap : Z) :
  ((exists chunks, chunk_text T size overlap = Ret chunks) <->
   (overlap < size \/ len (strip T) <= size \/ strip T = []))
  /\ ((forall fuel, chunk_text_fuel fuel T size overlap = OutOfFuel) <->
      (size <= overlap /\ size < len (strip T) /\ strip T <> [])).
Proof.
  assert (Hret : overlap < size \/ len (strip T) <= size \/ strip T = [] ->
                 exists chunks, chunk_text T size overlap = Ret chunks).
  { intros [H|[H|H]].
    - now apply chunk_text_returns.
    - exists [strip T]. unfold chunk_text, chunk_text_fuel.
      destruct (Z.leb_spec (len (strip T)) size); [reflexivity | lia].
    - unfold chunk_text, chunk_text_fuel. rewrite H.
      change (len []) with 0.
      destruct (0 <=? size); [eauto | exists []; reflexivity]. }
  assert (Hloop : size <= overlap /\ size < len (strip T) /\ strip T <> [] ->
                  forall fuel, chunk_text_fuel fuel T size overlap = OutOfFuel).
  { intros (H1 & H2 & H3). apply chunk_text_diverges; try assumption.
    destruct (strip T); [contradiction|]. unfold len. simpl. lia. }
  assert (Hcases : (overlap < size \/ len (strip T) <= size \/ strip T = [])
                   \/ (size <= overlap /\ size < len (strip T) /\ strip T <> [])).
  { destruct (Z.lt_ge_cases overlap size); [tauto|].
    destruct (Z.le_gt_cases (len (strip T)) size); [tauto|].
    destruct (strip T); [tauto|]. right. repeat split; try lia. discriminate. }
  split; split.
  - intros [chunks Hc]. destruct Hcases as [H|H]; [exact H|].
    unfold chunk_text in Hc. rewrite (Hloop H) in Hc. discriminate.
  - exact Hret.
  - intros Hall. destruct Hcases as [H|H]; [|exact H].
    destruct (Hret H) as [chunks Hc]. unfold chunk_text in Hc.
    rewrite Hall in Hc. discriminate.
  - exact Hloop.
Qed.

(* ------------------------------------------------------------------ *)
(** ** The normaliser: what the result looks like, what it keeps *)

Lemma blank_nf_no_tab (s : str) : blank_nf s -> ~ In TAB s.
Proof.
  induction s as [|c r IH]; simpl; [tauto|].
  intros [H Hr] [->|Hin]; [|now apply IH].
  destruct (H eq_refl) as [E _]. discriminate.
Qed.

Lemma blank_nf_no_double_space (p q : str) : ~ blank_nf (p ++ SP :: SP :: q).
Proof.
  intros H. apply blank_nf_suffix in H. destruct H as [H _].
  destruct (H eq_refl) as [_ E]. discriminate.
Qed.

Lemma short_runs_no_triple_lf (p q : str) :
  ~ short_runs is_lf 3 (p ++ LF :: LF :: LF :: q).
Proof.
  intros H. apply short_runs_suffix in H. destruct H as [H _].
  simpl in H. lia.
Qed.

Lemma strip_starts (s : str) : starts_with is_space (strip s) = false.
Proof. rewrite <- lstrip_strip. apply drop_while_start. Qed.

Lemma strip_ends (s : str) : starts_with is_space (rev (strip s)) = false.
Proof.
  unfold strip, rstrip. rewrite rev_involutive. apply drop_while_start.
Qed.

(** X4. The text [clean_text] returns holds no carriage return and no
    tab, never two spaces in a row, never three line feeds in a row, and
    neither starts nor ends with whitespace. *)
Theorem clean_text_normal_form (T : str) :
  ~ In CR (clean_text T)
  /\ ~ In TAB (clean_text T)
  /\ (forall p q, clean_text T <> p ++ SP :: SP :: q)
  /\ (forall p q, clean_text T <> p ++ LF :: LF :: LF :: q)
  /\ starts_with is_space (clean_text T) = false
  /\ starts_with is_space (rev (clean_text T)) = false.
Proof.
  destruct (clean_text_nf T) as (Hcr & Hb & Hl).
  split; [|split; [|split; [|split; [|split]]]].
  - intros Hin. rewrite Forall_forall in Hcr. now apply (Hcr CR).
  - now apply blank_nf_no_tab.
  - intros p q E. rewrite E in Hb. now apply blank_nf_no_double_space in Hb.
  - intros p q E. rewrite E in Hl. now apply short_runs_no_triple_lf in Hl.
  - apply strip_starts.
  - apply strip_ends.
Qed.

Lemma strip_length (s : str) : (length (strip s) <= length s)%nat.
Proof.
  destruct (strip_segment s) as (p & q & E).
  rewrite E at 2. rewrite !length_app. lia.
Qed.

Lemma re_sub_run_length (cls : char -> bool) (m : nat) (repl s : str) :
  (1 <= m)%nat -> (length repl <= m)%nat ->
  (length (re_sub_run cls m repl s) <= length s)%nat.
Proof.
  intros Hm Hrepl.
  apply (re_sub_run_ind cls m repl Hm
           (fun s out => (length out <= length s)%nat)).
  - simpl. lia.
  - intros c r _ IH. simpl. lia.
  - intros run rest Hrun _ _ IH. rewrite !length_app. lia.
Qed.

(** X5. [clean_text] never makes a text longer. *)
Theorem clean_text_length (T : str) :
  (length (clean_text T) <= length T)%nat.
Proof.
  unfold clean_text.
  etransitivity; [apply strip_length|].
  etransitivity; [apply re_sub_run_length; simpl; lia|].
  etransitivity; [apply re_sub_run_length; simpl; lia|].
  unfold replace_char. now rewrite length_map.
Qed.

(** *** Characters that are not whitespace are kept *)

Lemma visible_app (a b : str) : visible (a ++ b) = visible a ++ visible b.
Proof. apply filter_app. Qed.

Lemma visible_nil_iff (s : str) :
  visible s = [] <-> Forall (fun c => is_space c = true) s.
Proof.
  unfold visible. induction s as [|c r IH]; simpl.
  - split; [constructor | reflexivity].
  - destruct (is_space c) eqn:E; simpl.
    + rewrite IH. split; [now constructor | intros H; now inversion H].
    + split; [discriminate|]. intros H. inversion H; congruence.
Qed.

Lemma visible_replace_cr (s : str) : visible (replace_char CR LF s) = visible s.
Proof.
  unfold visible, replace_char. induction s as [|c r IH]; simpl; [reflexivity|].
  destruct (N.eqb_spec c CR) as [->|Hne]; simpl; [exact IH | now rewrite IH].
Qed.

Lemma visible_sub (cls : char -> bool) (m : nat) (repl s : str) :
  (1 <= m)%nat ->
  (forall c, cls c = true -> is_space c = true) ->
  visible repl = [] ->
  visible (re_sub_run cls m repl s) = visible s.
Proof.
  intros Hm Hcls Hrepl.
  apply (re_sub_run_ind cls m repl Hm (fun s out => visible out = visible s)).
  - reflexivity.
  - intros c r _ IH. unfold visible in *. simpl. now rewrite IH.
  - intros run rest _ Hrun _ IH. rewrite !visible_app, Hrepl, IH.
    replace (visible run) with (@nil char); [reflexivity|].
    symmetry. apply visible_nil_iff. revert Hrun. apply Forall_impl. exact Hcls.
Qed.

Lemma visible_drop_while (s : str) : visible (drop_while is_space s) = visible s.
Proof.
  unfold visible. induction s as [|c r IH]; simpl; [reflexivity|].
  destruct (is_space c) eqn:E; simpl; [exact IH | now rewrite E].
Qed.

Lemma visible_rev (s : str) : visible (rev s) = rev (visible s).
Proof. apply filter_rev. Qed.

Lemma visible_strip (s : str) : visible (strip s) = visible s.
Proof.
  unfold strip, rstrip, lstrip.
  now rewrite visible_rev, visible_drop_while, visible_rev, rev_involutive,
    visible_drop_while.
Qed.

Lemma is_blank_space (c : char) : is_blank c = true -> is_space c = true.
Proof.
  unfold is_blank. intros H. apply orb_true_iff in H.
  destruct H as [H|H]; apply N.eqb_eq in H; now subst.
Qed.

Lemma is_lf_space (c : char) : is_lf c = true -> is_space c = true.
Proof. unfold is_lf. intros H. apply N.eqb_eq in H. now subst. Qed.

Lemma visible_clean_text (T : str) : visible (clean_text T) = visible T.
Proof.
  unfold clean_text.
  rewrite visible_strip.
  rewrite visible_sub by (try lia; try reflexivity; apply is_lf_space).
  rewrite visible_sub by (try lia; try reflexivity; apply is_blank_space).
  apply visible_replace_cr.
Qed.

(** X6. [clean_text] changes whitespace only: the characters that are
    not whitespace come out the same and in the same order. *)
Theorem clean_text_keeps_visible (T : str) :
  visible (clean_text T) = visible T.
Proof. apply visible_clean_text. Qed.

(** X7. [clean_text] returns the empty string exactly for the texts made
    of whitespace only. *)
Theorem clean_text_empty_iff (T : str) :
  clean_text T = [] <-> Forall (fun c => is_space c = true) T.
Proof.
  rewrite <- visible_nil_iff, <- visible_clean_text. split.
  - now intros ->.
  - intros H. apply visible_nil_iff in H.
    pose proof (strip_starts
                  (re_sub_run is_lf 3 [LF; LF]
                     (re_sub_run is_blank 1 [SP] (replace_char CR LF T)))) as Hs.
    fold (clean_text T) in Hs.
    destruct (clean_text T) as [|c r]; [reflexivity|].
    inversion H; subst. simpl in Hs. congruence.
Qed.

(* ------------------------------------------------------------------ *)
(** ** PDF extraction: pages and the OCR flag *)

Lemma tier1_accepted_usable (pages : list str) :
  tier1_accepted pages = true -> 1 <= count_non_empty pages.
Proof. intros H. apply tier1_accepted_int in H. lia. Qed.

(** X8. [extract_pdf_text] flags a document for OCR exactly when it
    returns no page; when it does not flag it, the pages come from one of
    the two extractors and at least one of them has more than 30
    characters once stripped. *)
Theorem extract_pdf_text_flag (reader : option (list page_read))
    (miner : option (option str)) :
  (snd (extract_pdf_text reader miner) = true <->
   fst (extract_pdf_text reader miner) = [])
  /\ (snd (extract_pdf_text reader miner) = false ->
      1 <= count_non_empty (fst (extract_pdf_text reader miner))
      /\ (fst (extract_pdf_text reader miner) = extract_pdf_pypdf reader
          \/ fst (extract_pdf_text reader miner) = extract_pdf_pdfminer miner)).
Proof.
  unfold extract_pdf_text.
  destruct (tier1_accepted (extract_pdf_pypdf reader)) eqn:E1; simpl.
  - pose proof (tier1_accepted_usable _ E1) as Hc. split.
    + split; [discriminate|]. intros Hnil. rewrite Hnil in Hc.
      unfold count_non_empty in Hc. simpl in Hc. lia.
    + intros _. split; [exact Hc | now left].
  - destruct (truthy (extract_pdf_pdfminer miner)
              && (1 <=? count_non_empty (extract_pdf_pdfminer miner))) eqn:E2;
      simpl.
    + apply andb_true_iff in E2 as [Ht Hc]. apply Z.leb_le in Hc. split.
      * split; [discriminate|]. intros Hnil. rewrite Hnil in Ht. discriminate.
      * intros _. split; [exact Hc | now right].
    + split; [tauto | discriminate].
Qed.

(** *** Splitting at form feeds *)

Lemma split_on_not_nil (sep : char) (s : str) : split_on sep s <> [].
Proof.
  induction s as [|c r IH]; simpl; [discriminate|].
  destruct (split_on sep r); [contradiction|].
  destruct (c =? sep)%N; discriminate.
Qed.

Lemma join_cons_head (sep : str) (c : char) (w : str) (ws : list str) :
  join sep ((c :: w) :: ws) = c :: join sep (w :: ws).
Proof. destruct ws; reflexivity. Qed.

Lemma join_split_on (sep : char) (s : str) : join [sep] (split_on sep s) = s.
Proof.
  induction s as [|c r IH]; [reflexivity|]. simpl.
  pose proof (split_on_not_nil sep r) as Hne.
  destruct (split_on sep r) as [|w ws]; [contradiction|].
  destruct (N.eqb_spec c sep) as [->|Hc].
  - change (join [sep] ([] :: w :: ws)) with (sep :: join [sep] (w :: ws)).
    now rewrite IH.
  - rewrite join_cons_head. now rewrite IH.
Qed.

Lemma split_on_no_sep (sep : char) (s : str) :
  Forall (fun w => ~ In sep w) (split_on sep s).
Proof.
  induction s as [|c r IH]; simpl; [repeat constructor; tauto|].
  destruct (split_on sep r) as [|w ws]; [repeat constructor; tauto|].
  inversion IH as [|? ? Hw Hws]; subst.
  destruct (N.eqb_spec c sep) as [->|Hc].
  - constructor; [tauto | now constructor].
  - constructor; [|assumption]. intros [E|Hin]; [congruence | tauto].
Qed.

Lemma split_on_length (sep : char) (s : str) :
  length (split_on sep s) = S (count_char sep s).
Proof.
  unfold count_char. induction s as [|c r IH]; [reflexivity|]. simpl.
  pose proof (split_on_not_nil sep r) as Hne.
  destruct (split_on sep r) as [|w ws]; [contradiction|].
  destruct (c =? sep)%N; simpl in *; lia.
Qed.

Lemma split_on_absent (sep : char) (s : str) :
  contains [sep] s = false -> split_on sep s = [s].
Proof.
  induction s as [|c r IH]; [reflexivity|]. simpl.
  intros H. apply orb_false_iff in H as [H1 H2].
  rewrite andb_true_r in H1. rewrite (IH H2).
  rewrite N.eqb_sym, H1. reflexivity.
Qed.

Lemma extract_pdf_pdfminer_split (r : option str) :
  extract_pdf_pdfminer (Some r) = split_on FF (or_empty r).
Proof.
  unfold extract_pdf_pdfminer.
  destruct (contains [FF] (or_empty r)) eqn:E; [reflexivity|].
  symmetry. now apply split_on_absent.
Qed.

(** X9. When the fallback extractor returns a text, the pages of
    [extract_pdf_pdfminer] joined by form feeds give that text back; no
    page holds a form feed, and there is one page more than there are
    form feeds. *)
Theorem extract_pdf_pdfminer_pages (r : option str) :
  join [FF] (extract_pdf_pdfminer (Some r)) = or_empty r
  /\ Forall (fun page => ~ In FF page) (extract_pdf_pdfminer (Some r))
  /\ length (extract_pdf_pdfminer (Some r)) = S (count_char FF (or_empty r)).
Proof.
  rewrite extract_pdf_pdfminer_split.
  split; [apply join_split_on|].
  split; [apply split_on_no_sep | apply split_on_length].
Qed.

(** *** Page reads that fail *)

Lemma read_pages_raises (ps : list page_read) :
  In PageRaises ps -> read_pages ps = None.
Proof.
  induction ps as [|p ps IH]; [contradiction|].
  intros [->|Hin]; [reflexivity|]. simpl.
  destruct p; [|reflexivity]. now rewrite IH.
Qed.

Lemma read_pages_all (ps : list page_read) :
  ~ In PageRaises ps -> read_pages ps = Some (map page_text ps).
Proof.
  induction ps as [|p ps IH]; [reflexivity|]. simpl. intros H.
  destruct p; [|tauto]. rewrite IH by tauto. reflexivity.
Qed.

(** X10. [extract_pdf_pypdf] is all or nothing: when no page read
    raises it returns one text per page, the empty string where the
    reader gave [None]; when one page read raises, every page is lost,
    and [extract_pdf_text] treats the document as if the reader could
    not open it. *)
Theorem extract_pdf_pypdf_all_or_nothing (ps : list page_read) :
  (~ In PageRaises ps -> extract_pdf_pypdf (Some ps) = map page_text ps)
  /\ (In PageRaises ps ->
      extract_pdf_pypdf (Some ps) = []
      /\ forall miner,
           extract_pdf_text (Some ps) miner = extract_pdf_text None miner).
Proof.
  split.
  - intros H. unfold extract_pdf_pypdf. now rewrite read_pages_all.
  - intros H.
    assert (E : extract_pdf_pypdf (Some ps) = [])
      by (unfold extract_pdf_pypdf; now rewrite read_pages_raises).
    split; [exact E|]. intros miner. unfold extract_pdf_text. now rewrite E.
Qed.

(* ------------------------------------------------------------------ *)
(** ** The records of one document *)

Lemma str_eqb_eq (a b : str) : str_eqb a b = true <-> a = b.
Proof.
  revert b. induction a as [|x a IH]; intros [|y b]; simpl;
    try (split; [discriminate | discriminate]); [tauto|].
  rewrite andb_true_iff, N.eqb_eq, IH.
  split; [intros [-> ->]; reflexivity | intros H; now inversion H].
Qed.

Lemma clean_text_twice (T : str) : clean_text (clean_text T) = clean_text T.
Proof.
  unfold clean_text at 1.
  rewrite clean_steps_id by apply clean_text_nf.
  apply clean_text_stripped.
Qed.

Lemma cut_from_page_shift (row : SourceRecord) (path : Path) (i : Z)
    (page : str) (rest : list str) (r : ChunkRow) :
  cut_from_page row path (i + 1) rest r ->
  cut_from_page row path i (page :: rest) r.
Proof.
  intros (k & pg & chs & ch & Hk & Hc & Hin & ->).
  exists (S k), pg, chs, ch. repeat split; try assumption.
  f_equal. lia.
Qed.

(** The loop over the pages appends records cut from the pages. *)
Lemma page_loop_spec (row : SourceRecord) (path : Path) (pages : list str) :
  forall (i : Z) (acc : list ChunkRow),
  exists rows,
    page_loop row path i pages acc = Ret (acc ++ rows)
    /\ Forall (cut_from_page row path i pages) rows.
Proof.
  induction pages as [|page rest IH]; intros i acc.
  - exists []. simpl. now rewrite app_nil_r.
  - simpl.
    destruct (negb (truthy (clean_text page)) || (len (clean_text page) <? 30))
      eqn:Hskip.
    + destruct (IH (i + 1) acc) as (rows & Hrows & Hall).
      exists rows. split; [exact Hrows|].
      revert Hall. apply Forall_impl. intros r. apply cut_from_page_shift.
    + apply orb_false_iff in Hskip as [_ Hlen]. apply Z.ltb_ge in Hlen.
      destruct (default_chunks_readable (clean_text page)
                  (clean_text_stripped page) Hlen) as (chs & Hchs & _).
      rewrite Hchs. simpl.
      destruct (IH (i + 1) (acc ++ map (text_row row path i) chs))
        as (rows & Hrows & Hall).
      exists (map (text_row row path i) chs ++ rows).
      split; [now rewrite app_assoc|].
      apply Forall_app. split.
      * apply Forall_map, Forall_forall. intros ch Hin.
        exists 0%nat, page, chs, ch. repeat split; try assumption.
        f_equal. lia.
      * revert Hall. apply Forall_impl. intros r. apply cut_from_page_shift.
Qed.

Lemma build_chunks_text_rows_aux (lower : str -> str) (row : SourceRecord)
    (f : RawFile) (pages : list str) :
  read_document lower f = Some (pages, false) ->
  exists rows,
    build_chunks_for_doc lower row f = Ret rows
    /\ Forall (cut_from_page row (file_path f) 1 pages) rows.
Proof.
  intros H. unfold build_chunks_for_doc. rewrite H.
  destruct (page_loop_spec row (file_path f) pages 1 []) as (rows & Hr & Hall).
  exists rows. split; assumption.
Qed.

(** X11. For a document that is not flagged for OCR, every record of
    [build_chunks_for_doc] holds one chunk of the normalised text of one
    extracted page, cut with the default size and overlap, under that
    page's 1-based position in the extraction (pages that are skipped
    still count), with [needs_ocr = false]. *)
Theorem build_chunks_text_rows (lower : str -> str) (row : SourceRecord)
    (f : RawFile) (pages : list str) :
  read_document lower f = Some (pages, false) ->
  exists rows,
    build_chunks_for_doc lower row f = Ret rows
    /\ Forall (fun r =>
                 c_needs_ocr r = false
                 /\ exists (k : nat) (page : str) (chs : list str),
                      c_page r = Some (Z.of_nat k + 1)
                      /\ nth_error pages k = Some page
                      /\ chunk_text (clean_text page) CHUNK_SIZE CHUNK_OVERLAP
                         = Ret chs
                      /\ In (c_text r) chs) rows.
Proof.
  intros H.
  destruct (build_chunks_text_rows_aux lower row f pages H) as (rows & Hr & Hall).
  exists rows. split; [exact Hr|].
  revert Hall. apply Forall_impl.
  intros r (k & page & chs & ch & Hk & Hc & Hin & ->).
  cbn [c_page c_needs_ocr c_text text_row].
  split; [reflexivity|]. exists k, page, chs.
  repeat split; try assumption. f_equal. lia.
Qed.

Lemma build_chunks_text_rows_witness :
  exists rows,
    build_chunks_for_doc ascii_lower sample_row one_in_four_pdf = Ret rows
    /\ Forall (fun r =>
                 c_needs_ocr r = false
                 /\ exists (k : nat) (page : str) (chs : list str),
                      c_page r = Some (Z.of_nat k + 1)
                      /\ nth_error (extract_pdf_pypdf (pdf_reader one_in_four_pdf)) k
                         = Some page
                      /\ chunk_text (clean_text page) CHUNK_SIZE CHUNK_OVERLAP
                         = Ret chs
                      /\ In (c_text r) chs) rows.
Proof.
  apply (build_chunks_text_rows ascii_lower sample_row one_in_four_pdf).
  reflexivity.
Defined.

Lemma cut_from_page_describes (row : SourceRecord) (path : Path) (i : Z)
    (pages : list str) (r : ChunkRow) :
  cut_from_page row path i pages r ->
  describes row path r /\ c_needs_ocr r = false
  /\ exists j, c_page r = Some j /\ i <= j < i + Z.of_nat (length pages).
Proof.
  intros (k & page & chs & ch & Hk & _ & _ & ->).
  split; [repeat split|]. split; [reflexivity|].
  exists (i + Z.of_nat k). split; [reflexivity|].
  assert (k < length pages)%nat by (apply nth_error_Some; congruence). lia.
Qed.

(** The shape of the rows of one document. *)
Lemma build_chunks_shape (lower : str -> str) (row : SourceRecord) (f : RawFile) :
  exists rows,
    build_chunks_for_doc lower row f = Ret rows
    /\ Forall (describes row (file_path f)) rows
    /\ (rows = [placeholder_row row (file_path f)]
        \/ Forall (fun r => c_needs_ocr r = false
                            /\ exists j, c_page r = Some j /\ 1 <= j) rows)
    /\ (lower (suffix (file_path f)) <> lit ".pdf" ->
        Forall (fun r => c_needs_ocr r = false) rows).
Proof.
  destruct (read_document lower f) as [[pages [|]]|] eqn:Hdoc.
  - exists [placeholder_row row (file_path f)].
    split; [unfold build_chunks_for_doc; now rewrite Hdoc|].
    split; [repeat constructor|]. split; [now left|].
    intros Hext. exfalso. unfold read_document in Hdoc.
    destruct (str_eqb (lower (suffix (file_path f))) (lit ".pdf")) eqn:E.
    + apply str_eqb_eq in E. contradiction.
    + destruct (str_in _ [lit ".txt"; lit ".text"]); [discriminate|].
      destruct (str_in _ [lit ".html"; lit ".htm"]); discriminate.
  - destruct (build_chunks_text_rows_aux lower row f pages Hdoc)
      as (rows & Hr & Hall).
    exists rows. split; [exact Hr|].
    assert (Hd : Forall (fun r => describes row (file_path f) r
                                  /\ c_needs_ocr r = false
                                  /\ exists j, c_page r = Some j /\ 1 <= j) rows).
    { revert Hall. apply Forall_impl. intros r Hcut.
      destruct (cut_from_page_describes _ _ _ _ _ Hcut) as (D & N & j & Hj & Hb).
      split; [exact D|]. split; [exact N|]. exists j. split; [exact Hj | lia]. }
    split; [|split; [right|intros _]];
      revert Hd; apply Forall_impl; tauto.
  - exists []. split; [unfold build_chunks_for_doc; now rewrite Hdoc|].
    split; [constructor|]. split; [right; constructor | intros _; constructor].
Qed.

(** X12. Whenever [build_chunks_for_doc] returns its records, every
    record carries the [doc_id], title, url and validity of the catalogue
    row and the path of the file. The records are either the single OCR
    placeholder or records with [needs_ocr = false] and a page number of
    at least 1, never a mix; and a file whose lower-cased extension is
    not [".pdf"] never gives a placeholder. *)
Theorem build_chunks_rows_shape (lower : str -> str) (row : SourceRecord)
    (f : RawFile) (rows : list ChunkRow) :
  build_chunks_for_doc lower row f = Ret rows ->
  Forall (describes row (file_path f)) rows
  /\ (rows = [placeholder_row row (file_path f)]
      \/ Forall (fun r => c_needs_ocr r = false
                          /\ exists j, c_page r = Some j /\ 1 <= j) rows)
  /\ (lower (suffix (file_path f)) <> lit ".pdf" ->
      Forall (fun r => c_needs_ocr r = false) rows).
Proof.
  intros H.
  destruct (build_chunks_shape lower row f) as (rows' & H' & Hshape).
  rewrite H in H'. inversion H'; subst rows'. exact Hshape.
Qed.

Lemma build_chunks_rows_shape_witness :
  Forall (describes sample_row (file_path one_in_four_pdf))
    [text_row sample_row pdf_path 1 usable_page]
  /\ ([text_row sample_row pdf_path 1 usable_page]
      = [placeholder_row sample_row (file_path one_in_four_pdf)]
      \/ Forall (fun r => c_needs_ocr r = false
                          /\ exists j, c_page r = Some j /\ 1 <= j)
           [text_row sample_row pdf_path 1 usable_page])
  /\ (ascii_lower (suffix (file_path one_in_four_pdf)) <> lit ".pdf" ->
      Forall (fun r => c_needs_ocr r = false)
        [text_row sample_row pdf_path 1 usable_page]).
Proof.
  apply (build_chunks_rows_shape ascii_lower sample_row one_in_four_pdf).
  vm_compute. reflexivity.
Defined.

(** A document read as one normalised page. *)
Lemma single_page_rows (lower : str -> str) (row : SourceRecord) (f : RawFile)
    (content : str) :
  read_document lower f = Some ([clean_text content], false) ->
  exists chs,
    chunk_text (clean_text content) CHUNK_SIZE CHUNK_OVERLAP = Ret chs
    /\ reassemble CHUNK_OVERLAP chs = clean_text content
    /\ build_chunks_for_doc lower row f
       = Ret (if len (clean_text content) <? 30 then []
              else map (text_row row (file_path f) 1) chs).
Proof.
  intros Hdoc.
  destruct (chunk_text_reassemble_chunks (clean_text content)
              CHUNK_SIZE CHUNK_OVERLAP ltac:(unfold CHUNK_SIZE, CHUNK_OVERLAP; lia))
    as (chs & Hchs & Hre).
  rewrite clean_text_stripped in Hre.
  exists chs. split; [exact Hchs|]. split; [exact Hre|].
  unfold build_chunks_for_doc. rewrite Hdoc. cbv iota beta.
  cbn [page_loop]. rewrite clean_text_twice.
  destruct (Z.ltb_spec (len (clean_text content)) 30) as [Hlt|Hge].
  - now rewrite orb_true_r.
  - destruct (clean_text content) as [|c t] eqn:E;
      [unfold len in Hge; simpl in Hge; lia|].
    cbn [truthy negb orb]. rewrite Hchs. reflexivity.
Qed.

(** X13. A file whose lower-cased extension is [".txt"] or [".text"] is
    one page: its records are the chunks of the normalised content, all
    with page 1, and none at all when the normalised content has fewer
    than 30 characters; the chunks rebuild the normalised content. A
    [".html"] or [".htm"] file is handled the same way after its tags
    are replaced by spaces. *)
Theorem single_page_documents (lower : str -> str) (row : SourceRecord)
    (f : RawFile) :
  (lower (suffix (file_path f)) = lit ".txt"
   \/ lower (suffix (file_path f)) = lit ".text" ->
   exists chs,
     chunk_text (clean_text (file_text f)) CHUNK_SIZE CHUNK_OVERLAP = Ret chs
     /\ reassemble CHUNK_OVERLAP chs = clean_text (file_text f)
     /\ build_chunks_for_doc lower row f
        = Ret (if len (clean_text (file_text f)) <? 30 then []
               else map (text_row row (file_path f) 1) chs))
  /\ (lower (suffix (file_path f)) = lit ".html"
      \/ lower (suffix (file_path f)) = lit ".htm" ->
      exists chs,
        chunk_text (clean_text (sub_tags (file_text f))) CHUNK_SIZE CHUNK_OVERLAP
        = Ret chs
        /\ reassemble CHUNK_OVERLAP chs = clean_text (sub_tags (file_text f))
        /\ build_chunks_for_doc lower row f
           = Ret (if len (clean_text (sub_tags (file_text f))) <? 30 then []
                  else map (text_row row (file_path f) 1) chs)).
Proof.
  split; intros Hext; apply single_page_rows; unfold read_document;
    destruct Hext as [-> | ->]; reflexivity.
Qed.

Lemma single_page_documents_witness :
  exists chs,
    chunk_text (clean_text (file_text long_text_file)) CHUNK_SIZE CHUNK_OVERLAP
    = Ret chs
    /\ reassemble CHUNK_OVERLAP chs = clean_text (file_text long_text_file)
    /\ build_chunks_for_doc ascii_lower sample_row long_text_file
       = Ret (if len (clean_text (file_text long_text_file)) <? 30 then []
              else map (text_row sample_row (file_path long_text_file) 1) chs).
Proof.
  destruct (single_page_documents ascii_lower sample_row long_text_file)
    as [H _].
  apply H. left. reflexivity.
Defined.

(* ------------------------------------------------------------------ *)
(** ** The catalogue and the run *)

Lemma check_columns_result (cols req : list str) :
  (Forall (fun c => In c cols) req /\ check_columns req cols = Ret tt)
  \/ (exists pre c post,
         req = pre ++ c :: post
         /\ Forall (fun x => In x cols) pre
         /\ ~ In c cols
         /\ check_columns req cols = Raise (ValueError c)).
Proof.
  induction req as [|c req IH]; simpl.
  - left. split; [constructor | reflexivity].
  - unfold str_in. destruct (existsb (str_eqb c) cols) eqn:E.
    + apply existsb_exists in E as (x & Hin & Hx).
      apply str_eqb_eq in Hx. subst x.
      destruct IH as [[Hall Hok]|(pre & d & post & -> & Hpre & Hd & Hr)].
      * left. split; [now constructor | exact Hok].
      * right. exists (c :: pre), d, post.
        repeat split; try assumption. now constructor.
    + right. exists [], c, req. repeat split; [constructor|].
      intros Hin. apply Bool.not_true_iff_false in E. apply E.
      apply existsb_exists. exists c. split; [exact Hin|].
      now apply str_eqb_eq.
Qed.

(** X14. Without a catalogue file [read_sources_csv] raises
    [FileNotFoundError]. For a file that exists and that [pd.read_csv]
    has parsed into a table, it returns that table exactly when each of
    the six required columns is present, and otherwise raises
    [ValueError] for the first required column, in the order [doc_id],
    [title], [url], [fecha_descarga], [vigencia], [tipo], that is
    absent. *)
Theorem read_sources_csv_columns (df : DataFrame) :
  read_sources_csv None = Raise FileNotFoundError
  /\ ((Forall (fun c => In c (columns df)) required
       /\ read_sources_csv (Some df) = Ret df)
      \/ (exists pre c post,
             required = pre ++ c :: post
             /\ Forall (fun x => In x (columns df)) pre
             /\ ~ In c (columns df)
             /\ read_sources_csv (Some df) = Raise (ValueError c))).
Proof.
  split; [reflexivity|]. unfold read_sources_csv.
  destruct (check_columns_result (columns df) required)
    as [[Hall Hok]|(pre & c & post & Hreq & Hpre & Hc & Hr)].
  - left. split; [exact Hall|]. now rewrite Hok.
  - right. exists pre, c, post. repeat split; try assumption. now rewrite Hr.
Qed.

Lemma build_chunks_doc_rows (lower : str -> str) (row : SourceRecord) (f : RawFile) :
  build_chunks_for_doc lower row f = Ret (doc_rows lower row f).
Proof.
  unfold doc_rows.
  destruct (build_chunks_shape lower row f) as (rows & -> & _). reflexivity.
Qed.

(** The loop over the catalogue appends, row by row, the records of the
    documents that have a file and the ids of those that have none. *)
Lemma main_loop_spec (lower : str -> str) (files : list RawFile)
    (rows : list SourceRecord) :
  forall all_rows missing,
    main_loop lower rows files all_rows missing
    = Ret (all_rows ++ catalogue_rows lower rows files,
           missing ++ unresolved lower rows files).
Proof.
  induction rows as [|row rows IH]; intros all_rows missing.
  - simpl. now rewrite !app_nil_r.
  - unfold catalogue_rows, unresolved. simpl.
    destruct (resolve lower row files) as [f|].
    + rewrite build_chunks_doc_rows. simpl. rewrite IH.
      unfold catalogue_rows, unresolved. now rewrite <- app_assoc.
    + rewrite IH. unfold catalogue_rows, unresolved. now rewrite <- app_assoc.
Qed.

Lemma catalogue_rows_no_files (lower : str -> str) (rows : list SourceRecord) :
  catalogue_rows lower rows [] = [].
Proof. unfold catalogue_rows. induction rows; simpl; auto. Qed.

Lemma main_result (lower : str -> str) (df : DataFrame) (files : list RawFile) :
  check_columns required (columns df) = Ret tt ->
  main lower (Some df) files
  = match catalogue_rows lower (records df) files with
    | [] => Raise (SystemExit 1)
    | _ :: _ =>
        Ret {| saved := catalogue_rows lower (records df) files;
               not_found := unresolved lower (records df) files |}
    end.
Proof.
  intros Hcols. unfold main, read_sources_csv. rewrite Hcols. simpl.
  destruct files as [|f files].
  - simpl. now rewrite catalogue_rows_no_files.
  - simpl. rewrite main_loop_spec. simpl.
    destruct (catalogue_rows lower (records df) (f :: files)); reflexivity.
Qed.

(** X15. With a catalogue that has the required columns: whenever
    [main] returns, the saved table holds, in catalogue order, the
    records of every document that has a file, and the report lists, in
    catalogue order, the ids of the documents that have none; whenever
    [main] exits with status 1, no record was produced; and it does exit
    with status 1 when the raw directory is empty and when no catalogue
    row has a file. *)
Theorem main_report_in_catalogue_order (lower : str -> str) (df : DataFrame)
    (files : list RawFile) :
  check_columns required (columns df) = Ret tt ->
  (forall report,
      main lower (Some df) files = Ret report ->
      saved report = catalogue_rows lower (records df) files
      /\ not_found report = unresolved lower (records df) files)
  /\ (main lower (Some df) files = Raise (SystemExit 1) ->
      catalogue_rows lower (records df) files = [])
  /\ (files = [] -> main lower (Some df) files = Raise (SystemExit 1))
  /\ ((forall row, In row (records df) -> resolve lower row files = None) ->
      main lower (Some df) files = Raise (SystemExit 1)).
Proof.
  intros Hcols. rewrite (main_result lower df files Hcols).
  split; [|split; [|split]].
  - intros report H.
    destruct (catalogue_rows lower (records df) files); [discriminate|].
    inversion H; subst report. split; reflexivity.
  - destruct (catalogue_rows lower (records df) files);
      [reflexivity | discriminate].
  - intros ->. now rewrite catalogue_rows_no_files.
  - intros Hnone.
    assert (E : catalogue_rows lower (records df) files = []).
    { unfold catalogue_rows. induction (records df) as [|row rows IH];
        [reflexivity|].
      simpl. rewrite (Hnone row (or_introl eq_refl)). simpl.
      apply IH. intros row' Hin. apply Hnone. now right. }
    now rewrite E.
Qed.

Lemma main_report_in_catalogue_order_witness :
  saved {| saved := [placeholder_row sample_row pdf_path];
           not_found := [lit "R002"] |}
  = catalogue_rows ascii_lower (records sample_catalogue)
      [other_file; scanned_pdf]
  /\ not_found {| saved := [placeholder_row sample_row pdf_path];
                  not_found := [lit "R002"] |}
     = unresolved ascii_lower (records sample_catalogue)
         [other_file; scanned_pdf].
Proof.
  destruct (main_report_in_catalogue_order ascii_lower sample_catalogue
              [other_file; scanned_pdf] eq_refl) as (H & _).
  apply H. vm_compute. reflexivity.
Defined.

(** X16. Neither [build_chunks_for_doc] nor [main] can stay in the
    chunking loop for ever: [chunk_text] is only called with the default
    size 3800 and overlap 500, and with these every call returns,
    whatever the page texts. *)
Theorem main_never_out_of_fuel (lower : str -> str) :
  (forall row f, build_chunks_for_doc lower row f <> OutOfFuel)
  /\ (forall csv files, main lower csv files <> OutOfFuel).
Proof.
  split.
  - intros row f. rewrite build_chunks_doc_rows. discriminate.
  - intros [df|] files; [|discriminate].
    destruct (check_columns_result (columns df) required)
      as [[_ Hok]|(pre & c & post & _ & _ & _ & Hr)].
    + rewrite (main_result lower df files Hok).
      destruct (catalogue_rows lower (records df) files); discriminate.
    + unfold main, read_sources_csv. rewrite Hr. discriminate.
Qed.

(* ------------------------------------------------------------------ *)
(** ** The file search, once more *)

(** What a chosen file satisfies. *)
Lemma resolve_some (lower : str -> str) (row : SourceRecord)
    (files : list RawFile) (f : RawFile) :
  resolve lower row files = Some f ->
  In f files
  /\ (contains (lower (doc_id row)) (lower (stem (file_path f))) = true
      \/ (title_key lower (title row) <> []
          /\ contains (title_key lower (title row)) (lower (stem (file_path f)))
             = true
          /\ Forall (fun g => contains (lower (doc_id row))
                                (lower (stem (file_path g))) = false) files)).
Proof.
  unfold resolve, find_by_doc_id, find_by_title.
  destruct (find _ files) as [g|] eqn:E1.
  - intros H. inversion H; subst g. apply find_some in E1 as [Hin Hm].
    split; [exact Hin | now left].
  - intros E2. apply find_some in E2 as [Hin Hm].
    apply andb_true_iff in Hm as [Hk Hm].
    split; [exact Hin|]. right. split; [|split].
    + intros E. rewrite E in Hk. discriminate.
    + exact Hm.
    + apply Forall_forall. intros g Hg. now apply (find_none _ _ E1).
Qed.

(** X17. A file chosen by the search belongs to the listing, and it
    matches: its lower-cased base name contains the lower-cased [doc_id],
    or no file matches the id, the title key is not empty and its
    lower-cased base name contains the key. No file is chosen exactly
    when no file matches the id and the key is empty or matches no
    file. *)
Theorem resolve_sound (lower : str -> str) (row : SourceRecord)
    (files : list RawFile) :
  let by_id := fun f => contains (lower (doc_id row)) (lower (stem (file_path f))) in
  let key := title_key lower (title row) in
  let by_key := fun f => contains key (lower (stem (file_path f))) in
  (forall f, resolve lower row files = Some f ->
     In f files
     /\ (by_id f = true
         \/ (key <> [] /\ by_key f = true
             /\ Forall (fun g => by_id g = false) files)))
  /\ (resolve lower row files = None <->
      Forall (fun g => by_id g = false) files
      /\ (key = [] \/ Forall (fun g => by_key g = false) files)).
Proof.
  intros by_id key by_key. subst by_id key by_key.
  split; [intros f; apply resolve_some|].
  unfold resolve, find_by_doc_id. split.
  - destruct (find _ files) as [g|] eqn:E1; [discriminate|].
    intros E2. split.
    + apply Forall_forall. intros g Hg. now apply (find_none _ _ E1).
    + destruct (title_key lower (title row)) as [|c key] eqn:Ek; [now left|].
      right. apply Forall_forall. intros g Hg.
      unfold find_by_title in E2.
      now apply (find_none _ _ E2) in Hg.
  - intros [Hid Hkey]. rewrite (find_none_Forall _ files Hid).
    destruct Hkey as [->|Hkey]; [apply find_by_title_empty_key|].
    unfold find_by_title. apply find_none_Forall.
    revert Hkey. apply Forall_impl. intros g Hg. rewrite Hg. apply andb_false_r.
Qed.

(** X18. When [main] returns a report, the saved table is not empty;
    each saved record carries the [doc_id], title, url and validity of a
    catalogue row and the path of the file of the listing chosen for that
    row; and the ids reported as not found are exactly the ids of the
    catalogue rows for which no file is chosen. *)
Theorem main_report_origin (lower : str -> str) (df : DataFrame)
    (files : list RawFile) (report : Report) :
  main lower (Some df) files = Ret report ->
  saved report <> []
  /\ Forall (fun r =>
               exists row f,
                 In row (records df) /\ In f files
                 /\ resolve lower row files = Some f
                 /\ describes row (file_path f) r) (saved report)
  /\ (forall id,
        In id (not_found report) <->
        exists row, In row (records df) /\ doc_id row = id
                    /\ resolve lower row files = None).
Proof.
  intros Hmain.
  destruct (check_columns_result (columns df) required)
    as [[_ Hok]|(pre & c & post & _ & _ & _ & Hr)];
    [|unfold main, read_sources_csv in Hmain; rewrite Hr in Hmain; discriminate].
  rewrite (main_result lower df files Hok) in Hmain.
  destruct (catalogue_rows lower (records df) files) as [|r0 rs] eqn:Hrows;
    [discriminate|].
  inversion Hmain; subst report; clear Hmain. simpl.
  split; [discriminate|]. split.
  - rewrite <- Hrows. apply Forall_forall. intros r Hr.
    unfold catalogue_rows in Hr. apply in_flat_map in Hr as (row & Hrow & Hin).
    destruct (resolve lower row files) as [f|] eqn:Hres; [|contradiction].
    exists row, f. split; [exact Hrow|].
    split; [now apply (resolve_some lower row files f)|].
    split; [exact Hres|].
    destruct (build_chunks_shape lower row f) as (rows & Hb & Hd & _).
    unfold doc_rows in Hin. rewrite Hb in Hin.
    rewrite Forall_forall in Hd. now apply Hd.
  - intros id. unfold unresolved. rewrite in_flat_map. split.
    + intros (row & Hrow & Hin).
      destruct (resolve lower row files) eqn:Hres; [contradiction|].
      destruct Hin as [<-|[]]. now exists row.
    + intros (row & Hrow & <- & Hres). exists row. split; [exact Hrow|].
      rewrite Hres. now left.
Qed.

Lemma main_report_origin_witness :
  exists report,
    main ascii_lower (Some sample_catalogue) [other_file; scanned_pdf] = Ret report
    /\ saved report <> []
    /\ Forall (fun r =>
                 exists row f,
                   In row (records sample_catalogue)
                   /\ In f [other_file; scanned_pdf]
                   /\ resolve ascii_lower row [other_file; scanned_pdf] = Some f
                   /\ describes row (file_path f) r) (saved report)
    /\ (forall id,
          In id (not_found report) <->
          exists row, In row (records sample_catalogue) /\ doc_id row = id
                      /\ resolve ascii_lower row [other_file; scanned_pdf] = None).
Proof.
  eexists. split; [vm_compute; reflexivity|].
  apply (main_report_origin ascii_lower sample_catalogue [other_file; scanned_pdf]).
  vm_compute. reflexivity.
Defined.

(* ------------------------------------------------------------------ *)
(** ** The key made from a title *)

Lemma alnum_not_space (c : char) : is_not_alnum c = false -> is_space c = false.
Proof.
  unfold is_not_alnum. intros H. apply negb_false_iff in H.
  rewrite orb_true_iff, !andb_true_iff, !N.leb_le in H.
  unfold is_space.
  repeat match goal with
         | |- context [(?a <=? ?b)%N] =>
             destruct (N.leb_spec a b); try lia
         | |- context [(?a =? ?b)%N] =>
             destruct (N.eqb_spec a b); try lia
         end; reflexivity.
Qed.

Lemma sub_not_alnum_chars (s : str) :
  Forall (fun c => is_not_alnum c = false \/ c = SP)
    (re_sub_run is_not_alnum 1 [SP] s).
Proof.
  apply (re_sub_run_ind is_not_alnum 1 [SP] ltac:(lia)
           (fun _ out => Forall (fun c => is_not_alnum c = false \/ c = SP) out)).
  - constructor.
  - intros c r Hlt IH. constructor; [|exact IH]. left.
    simpl in Hlt. destruct (is_not_alnum c); [simpl in Hlt; lia | reflexivity].
  - intros run rest _ _ _ IH. constructor; [now right | exact IH].
Qed.

Lemma split_ws_aux_words (P : char -> Prop) (s : str) :
  forall cur,
    Forall P cur ->
    Forall (fun c => is_space c = false -> P c) s ->
    Forall (Forall P) (split_ws_aux cur s).
Proof.
  induction s as [|c r IH]; intros cur Hcur Hs; simpl.
  - destruct cur; [constructor|]. constructor; [|constructor].
    now apply Forall_rev.
  - inversion Hs as [|? ? Hc Hr]; subst.
    destruct (is_space c) eqn:E.
    + destruct cur; [now apply IH|].
      constructor; [now apply Forall_rev | now apply IH].
    + apply IH; [|exact Hr]. constructor; [now apply Hc | exact Hcur].
Qed.

Lemma join_Forall (P : char -> Prop) (sep : str) (ws : list str) :
  Forall P sep -> Forall (Forall P) ws -> Forall P (join sep ws).
Proof.
  intros Hsep. induction 1 as [|w ws Hw Hws IH]; simpl; [constructor|].
  destruct ws as [|w' ws']; [exact Hw|].
  apply Forall_app. split; [exact Hw|]. apply Forall_app. split; assumption.
Qed.

Lemma Forall_firstn_words (P : str -> Prop) (n : nat) (ws : list str) :
  Forall P ws -> Forall P (firstn n ws).
Proof.
  intros H. rewrite <- (firstn_skipn n ws) in H.
  now apply Forall_app in H as [H _].
Qed.

(** X19. Whatever the title and the lower-casing, the key of the second
    stage of the file search is made only of the characters [a-z], [0-9]
    and the underscore. *)
Theorem title_key_chars (lower : str -> str) (t : str) :
  Forall (fun c => is_key_char c = true) (title_key lower t).
Proof.
  unfold title_key. apply join_Forall.
  - repeat constructor.
  - apply Forall_firstn_words. unfold split_ws.
    apply split_ws_aux_words; [constructor|].
    pose proof (sub_not_alnum_chars (lower t)) as H.
    revert H. apply Forall_impl. intros c [Hc | ->] Hs.
    + unfold is_key_char. now rewrite Hc.
    + discriminate.
Qed.

Lemma split_ws_aux_nil_iff (s : str) :
  forall cur,
    split_ws_aux cur s = [] <->
    cur = [] /\ Forall (fun c => is_space c = true) s.
Proof.
  induction s as [|c r IH]; intros cur; simpl.
  - destruct cur; split; try tauto; try discriminate.
    + intros _. split; [reflexivity | constructor].
    + intros [H _]. discriminate.
  - destruct (is_space c) eqn:E.
    + destruct cur.
      * rewrite IH. split; intros [H1 H2]; split; trivial.
        -- now constructor.
        -- now inversion H2.
      * split; [discriminate | intros [H _]; discriminate].
    + rewrite IH. split; [intros [H _]; discriminate|].
      intros [_ H]. inversion H; congruence.
Qed.

Lemma split_ws_aux_nonempty (s : str) :
  forall cur, Forall (fun w => w <> []) (split_ws_aux cur s).
Proof.
  assert (Hrev : forall (a : char) (cur : str), rev (a :: cur) <> []).
  { intros a cur H. apply (f_equal (@length char)) in H.
    rewrite length_rev in H. discriminate. }
  induction s as [|c r IH]; intros cur; simpl.
  - destruct cur; [constructor|]. constructor; [apply Hrev | constructor].
  - destruct (is_space c); [|apply IH].
    destruct cur; [apply IH|]. constructor; [apply Hrev | apply IH].
Qed.

Lemma join_first_words_nil (sep : str) (ws : list str) :
  Forall (fun w => w <> []) ws ->
  (join sep (firstn 3 ws) = [] <-> ws = []).
Proof.
  intros H. destruct ws as [|w ws]; [tauto|].
  inversion H as [|? ? Hw _]; subst.
  split; [|discriminate].
  change (firstn 3 (w :: ws)) with (w :: firstn 2 ws). intros E. exfalso.
  destruct w as [|a w]; [now apply Hw|].
  destruct (firstn 2 ws); simpl in E; discriminate.
Qed.

Lemma sub_not_alnum_space_iff (s : str) :
  Forall (fun c => is_space c = true) (re_sub_run is_not_alnum 1 [SP] s)
  <-> Forall (fun c => is_not_alnum c = true) s.
Proof.
  apply (re_sub_run_ind is_not_alnum 1 [SP] ltac:(lia)
           (fun s out => Forall (fun c => is_space c = true) out
                         <-> Forall (fun c => is_not_alnum c = true) s)).
  - split; constructor.
  - intros c r Hlt _. simpl in Hlt.
    destruct (is_not_alnum c) eqn:E; [simpl in Hlt; lia|].
    split; intros H; inversion H; subst.
    + apply alnum_not_space in E. congruence.
    + congruence.
  - intros run rest _ Hrun _ IH. split; intros H.
    + apply Forall_app. split; [exact Hrun|]. apply IH.
      now apply Forall_app in H as [_ H].
    + apply Forall_app in H as [_ H]. apply Forall_app. split.
      * repeat constructor.
      * now apply IH.
Qed.

(** X21. The key is empty exactly when the lower-cased title has no
    character in [a-z] or [0-9]; these are the titles for which the
    second stage of the file search is switched off. *)
Theorem title_key_empty_iff (lower : str -> str) (t : str) :
  title_key lower t = [] <->
  Forall (fun c => is_not_alnum c = true) (lower t).
Proof.
  unfold title_key.
  rewrite join_first_words_nil by apply split_ws_aux_nonempty.
  unfold split_ws. rewrite split_ws_aux_nil_iff.
  rewrite sub_not_alnum_space_iff. tauto.
Qed.

(* ------------------------------------------------------------------ *)
(** ** The snippet of a source entry *)

Lemma slice_prefix (t : str) (k : Z) :
  0 <= k -> slice t 0 k = firstn (Z.to_nat k) t.
Proof.
  intros Hk. unfold slice, slice_bound. pose proof (len_nonneg t) as Hn.
  destruct (Z.ltb_spec k 0); [lia|]. simpl (0 <? 0).
  cbv iota. rewrite (Z.min_l 0) by lia. simpl skipn. rewrite Z.sub_0_r.
  destruct (Z.le_gt_cases k (len t)) as [Hle|Hgt].
  - now rewrite Z.min_l by lia.
  - rewrite Z.min_r by lia. unfold len in *. rewrite Nat2Z.id.
    rewrite firstn_all. symmetry. apply firstn_all2. lia.
Qed.

(** X20. The snippet of a source entry has the first 250 characters of
    the chunk text, or all of them when there are fewer, with every line
    feed replaced by a space: it has [min(len(text), 250)] characters and
    no line feed. *)
Theorem snippet_bounded (text : str) :
  snippet text = replace_char LF SP (firstn 250 text)
  /\ len (snippet text) = Z.min (len text) 250
  /\ ~ In LF (snippet text).
Proof.
  unfold snippet. rewrite slice_prefix by lia.
  change (Z.to_nat 250) with 250%nat.
  split; [reflexivity|]. split.
  - unfold replace_char, len. rewrite length_map, length_firstn. lia.
  - unfold replace_char. rewrite in_map_iff. intros (c & Hc & _).
    destruct (N.eqb_spec c LF); [discriminate | congruence].
Qed.

(* ------------------------------------------------------------------ *)
(** ** Tags in HTML text *)

Lemma sub_tags_cons (c : char) (r : str) :
  sub_tags (c :: r) =
  if (c =? LT)%N then
    match scan_tag r false with
    | Some out => SP :: out
    | None => c :: sub_tags r
    end
  else c :: sub_tags r.
Proof. reflexivity. Qed.

Lemma scan_tag_closed (body rest : str) (seen : bool) :
  ~ In GT body ->
  scan_tag (body ++ GT :: rest) seen =
  if seen || truthy body then Some (sub_tags rest) else None.
Proof.
  revert seen. induction body as [|d body IH]; intros seen Hno.
  - simpl. rewrite orb_false_r. reflexivity.
  - simpl app. simpl scan_tag.
    destruct (N.eqb_spec d GT) as [->|Hd]; [exfalso; apply Hno; now left|].
    rewrite IH by (intros H; apply Hno; now right).
    simpl. now rewrite orb_true_r.
Qed.

Lemma scan_tag_open (t : str) (seen : bool) :
  ~ In GT t -> scan_tag t seen = None.
Proof.
  revert seen. induction t as [|d t IH]; intros seen Hno; [reflexivity|].
  simpl. destruct (N.eqb_spec d GT) as [->|Hd]; [exfalso; apply Hno; now left|].
  apply IH. intros H. apply Hno. now right.
Qed.

(** X22. Tag removal on HTML text: a ["<"], a body that is not empty and
    holds no [">"], and a [">"] are replaced together by one space; a
    ["<"] that no [">"] follows is kept, and so is ["<>"]; a text without
    ["<"] is left as it is. *)
Theorem sub_tags_cases (body rest : str) :
  (body <> [] -> ~ In GT body ->
   sub_tags (LT :: body ++ GT :: rest) = SP :: sub_tags rest)
  /\ (~ In GT rest -> sub_tags (LT :: rest) = LT :: sub_tags rest)
  /\ sub_tags (LT :: GT :: rest) = LT :: GT :: sub_tags rest
  /\ (~ In LT rest -> sub_tags rest = rest).
Proof.
  split; [|split; [|split]].
  - intros Hne Hno. rewrite sub_tags_cons, N.eqb_refl.
    rewrite scan_tag_closed by assumption.
    destruct body; [contradiction | reflexivity].
  - intros Hno. rewrite sub_tags_cons, N.eqb_refl.
    now rewrite scan_tag_open.
  - rewrite sub_tags_cons, N.eqb_refl. simpl scan_tag.
    rewrite sub_tags_cons. reflexivity.
  - induction rest as [|c r IH]; [reflexivity|]. intros Hno.
    rewrite sub_tags_cons.
    destruct (N.eqb_spec c LT) as [->|Hc]; [exfalso; apply Hno; now left|].
    rewrite IH; [reflexivity|]. intros H. apply Hno. now right.
Qed.
